(** * Reusable blocks: conversion effects, template synchronisation and the
      embedded-editor selection protocol

    A shallow embedding of
    - [packages/editor/src/store/effects/reusable-blocks.js]
      ([convertBlockToStatic], [convertBlockToReusable]),
    - [packages/block-library/src/block/edit.js] ([ReusableBlockEdit] and
      its [withSelect] mapping),
    - [packages/block-library/src/block/selection-observer/index.js]
      ([SelectionObserver]),
    together with the parts of [@wordpress/blocks] those files call
    ([createBlock], [cloneBlock], [synchronizeBlocksWithTemplate]), which
    are documented in the package README. *)

From stdpp Require Import gmap strings list pretty.

Local Open Scope string_scope.

(** ** JavaScript values that occur as block attributes *)

Module Js.

(** A JS number is a finite value, [NaN] or one of the infinities.  The
    numbers of this development are record identifiers and counters,
    hence integral. *)
Inductive Num :=
| Finite (z : Z)
| NaN
| PosInfinity
| NegInfinity.

Inductive Val :=
| VUndefined
| VNull
| VBool (b : bool)
| VNum (n : Num)
| VString (s : string).

#[global] Instance Num_eq_dec : EqDecision Num.
Proof. solve_decision. Defined.

#[global] Instance Val_eq_dec : EqDecision Val.
Proof. solve_decision. Defined.

(** [Number.isFinite( v )]: no coercion, true only on finite numbers. *)
Definition isFinite (v : Val) : bool :=
  match v with
  | VNum (Finite _) => true
  | _ => false
  end.

(** Truthiness, as tested by [if], [!] and [!!]. *)
Definition truthy (v : Val) : bool :=
  match v with
  | VUndefined | VNull => false
  | VBool b => b
  | VNum (Finite z) => negb (z =? 0)%Z
  | VNum NaN => false
  | VNum _ => true
  | VString s => negb (String.eqb s "")
  end.

End Js.

(** ** Blocks *)

(** Client identifiers are produced by [uuid()].  The generator is modelled
    as a supply that hands out the next unused identifier; an identifier is
    the index at which the supply produced it. *)
Definition ClientId := nat.

Abbreviation Attributes := (gmap string Js.Val).

#[warnings="-register-all"]
Inductive Block := mkBlock {
  clientId : ClientId;
  name : string;
  attributes : Attributes;
  innerBlocks : list Block;
}.

(** The induction principle that reaches the inner blocks. *)
Section BlockInd.
Variable P : Block -> Prop.
Hypothesis IH : forall c n a inner, Forall P inner -> P (mkBlock c n a inner).

Fixpoint Block_nested_ind (b : Block) : P b :=
  match b with
  | mkBlock c n a inner =>
      IH c n a inner
        ((fix go (l : list Block) : Forall P l :=
            match l with
            | [] => @List.Forall_nil _ P
            | x :: l' => @List.Forall_cons _ P x l' (Block_nested_ind x) (go l')
            end) inner)
  end.
End BlockInd.

(** All client identifiers of a block, the block's own first. *)
Fixpoint blockIds (b : Block) : list ClientId :=
  clientId b :: flat_map blockIds (innerBlocks b).

Definition blocksIds (bs : list Block) : list ClientId := flat_map blockIds bs.

(** Number of nodes of a block. *)
Fixpoint blockSize (b : Block) : nat :=
  S (list_sum (map blockSize (innerBlocks b))).

Definition blocksSize (bs : list Block) : nat := list_sum (map blockSize bs).

(** What is left of a block once identifiers are forgotten: type name,
    attributes and the shape of the children. *)
#[warnings="-register-all"]
Inductive Shape := mkShape {
  shapeName : string;
  shapeAttributes : Attributes;
  shapeChildren : list Shape;
}.

Fixpoint shape (b : Block) : Shape :=
  mkShape (name b) (attributes b) (map shape (innerBlocks b)).

(** ** Identifier supplies *)

Record Supply := mkSupply {
  nextUuid : nat;    (* position in the [uuid()] stream *)
  idCounter : nat;   (* lodash's module-level [idCounter] *)
}.

(** Computations that only draw identifiers. *)
Definition Gen (A : Type) : Type := Supply -> A * Supply.

Definition gret {A} (a : A) : Gen A := fun s => (a, s).

Definition gbind {A B} (m : Gen A) (k : A -> Gen B) : Gen B :=
  fun s => let (a, s') := m s in k a s'.

(** [uuid()] *)
Definition uuid : Gen ClientId :=
  fun s => (nextUuid s, mkSupply (S (nextUuid s)) (idCounter s)).

(** lodash [uniqueId( prefix )]: [var id = ++idCounter; return prefix + id]. *)
Definition uniqueId (prefix : string) : Gen string :=
  fun s =>
    let id := S (idCounter s) in
    (prefix +:+ pretty id, mkSupply (nextUuid s) id).

(** [array.map( f )] for an [f] that draws identifiers, left to right. *)
Definition gmapM {A B} (f : A -> Gen B) : list A -> Gen (list B) :=
  fix go (l : list A) : Gen (list B) :=
    match l with
    | [] => gret []
    | x :: l' => gbind (f x) (fun y => gbind (go l') (fun ys => gret (y :: ys)))
    end.

(** Modelled from the spec: [createBlock] of [@wordpress/blocks], of which
    only the README entry is at hand ("Returns a block object given its type
    and attributes", with optional nested blocks).  A created block is a new
    content node: it receives a newly allocated [clientId] and carries the
    given name, attributes and inner blocks. *)
Definition createBlock (n : string) (attrs : Attributes)
    (inner : list Block) : Gen Block :=
  gbind uuid (fun c => gret (mkBlock c n attrs inner)).

(** Modelled from the spec: [cloneBlock] of [@wordpress/blocks], of which
    only the README entry is at hand ("returns a copy of the block object,
    optionally merging new attributes and/or replacing its inner blocks").
    The spec makes the copy a recursive deep clone in which every node and
    nested descendant gets a newly allocated [clientId] and which is
    structurally identical otherwise.  Merged attributes win over the
    block's own; replacement inner blocks are taken as given. *)
Fixpoint cloneBlockWith (mergeAttributes : Attributes)
    (newInnerBlocks : option (list Block)) (b : Block) : Gen Block :=
  gbind uuid (fun c =>
  gbind (match newInnerBlocks with
         | Some inner => gret inner
         | None => gmapM (cloneBlockWith ∅ None) (innerBlocks b)
         end) (fun inner =>
  gret (mkBlock c (name b) (mergeAttributes ∪ attributes b) inner))).

(** [cloneBlock( block )] with the optional arguments left out. *)
Definition cloneBlock (b : Block) : Gen Block := cloneBlockWith ∅ None b.

(** ** Effect handlers: reads from the host, dispatched actions, exceptions *)

(** The only exception the handlers can raise: reading a property of
    [null]. *)
Inductive Error :=
| TypeError (property : string).

(** The record the editor store keeps for a reusable block:
    [{ id, clientId, title }]. *)
Record ReusableBlock := mkReusableBlock {
  rb_id : Js.Val;
  rb_clientId : ClientId;
  rb_title : string;
}.

(** The actions the handlers dispatch, [replaceBlocks] and [receiveBlocks]
    to the block-editor store, the other two to the editor store.  The
    action creators wrap a lone identifier or block into an array. *)
Inductive Action :=
| ReplaceBlocks (clientIds : list ClientId) (blocks : list Block)
| ReceiveBlocks (blocks : list Block)
| ReceiveReusableBlocks (results : list (ReusableBlock * Block))
| SaveReusableBlock (id : Js.Val).

(** What the handlers read: [select( 'core/block-editor' ).getBlock],
    [.getBlocksByClientId] and the editor store's
    [__experimentalGetReusableBlock( state, ref )].  The lookups answer
    [null] ([None]) for an unknown identifier. *)
Record Host := mkHost {
  getBlock : ClientId -> option Block;
  getBlocksByClientId : list ClientId -> list Block;
  getReusableBlock : Js.Val -> option ReusableBlock;
}.

Record Outcome (A : Type) := mkOutcome {
  value : Error + A;
  supplyAfter : Supply;
  dispatched : list Action;
}.
Arguments mkOutcome {A}.
Arguments value {A}.
Arguments supplyAfter {A}.
Arguments dispatched {A}.

(** A handler body: draws identifiers, dispatches actions in order and may
    stop at an exception, keeping what it did before. *)
Definition Eff (A : Type) : Type := Supply -> Outcome A.

Definition eret {A} (a : A) : Eff A := fun s => mkOutcome (inr a) s [].

Definition ebind {A B} (m : Eff A) (k : A -> Eff B) : Eff B :=
  fun s =>
    let r := m s in
    match value r with
    | inl e => mkOutcome (inl e) (supplyAfter r) (dispatched r)
    | inr a =>
        let r' := k a (supplyAfter r) in
        mkOutcome (value r') (supplyAfter r') (dispatched r ++ dispatched r')
    end.

Notation "'let*' x ':=' m 'in' k" := (ebind m (fun x => k))
  (at level 10, x name, m at level 100, k at level 200, only parsing).

Definition throw {A} (e : Error) : Eff A := fun s => mkOutcome (inl e) s [].

Definition dispatch (a : Action) : Eff unit :=
  fun s => mkOutcome (inr tt) s [a].

Definition draw {A} (g : Gen A) : Eff A :=
  fun s => let (a, s') := g s in mkOutcome (inr a) s' [].

(** [o.property] for an [o] that may be [null]. *)
Definition deref {A} (o : option A) (property : string) : Eff A :=
  match o with
  | Some a => eret a
  | None => throw (TypeError property)
  end.

(** [block.attributes[ key ]], [undefined] when the key is absent. *)
Definition attribute (b : Block) (key : string) : Js.Val :=
  default Js.VUndefined (attributes b !! key).

(** [convertBlockToStatic( action, store )] with [action.clientId]. *)
Definition convertBlockToStatic (h : Host) (action_clientId : ClientId)
    : Eff unit :=
  let oldBlock := getBlock h action_clientId in
  let* oldBlock := deref oldBlock "attributes" in
  let reusableBlock := getReusableBlock h (attribute oldBlock "ref") in
  let* reusableBlock := deref reusableBlock "clientId" in
  let referencedBlock := getBlock h (rb_clientId reusableBlock) in
  let* referencedBlock := deref referencedBlock "name" in
  let* newBlocks :=
    if decide (name referencedBlock = "core/template")
    then draw (gmapM cloneBlock (innerBlocks referencedBlock))
    else draw (gbind (cloneBlock referencedBlock) (fun b => gret [b])) in
  dispatch (ReplaceBlocks [clientId oldBlock] newBlocks).

(** [convertBlockToReusable( action, store )] with [action.clientIds].  The
    fields of the [reusableBlock] literal are evaluated in order, so
    [uniqueId] runs before [parsedBlock.clientId] is read. *)
Definition convertBlockToReusable (h : Host) (action_clientIds : list ClientId)
    : Eff unit :=
  let* parsedBlock :=
    match action_clientIds with
    | [c] => eret (getBlock h c)
    | _ =>
        let* b := draw (createBlock "core/template" ∅
                          (getBlocksByClientId h action_clientIds)) in
        let* _ := dispatch (ReceiveBlocks [b]) in
        eret (Some b)
    end in
  let* id := draw (uniqueId "reusable") in
  let* parsedBlock := deref parsedBlock "clientId" in
  let reusableBlock :=
    mkReusableBlock (Js.VString id) (clientId parsedBlock)
      "Untitled Reusable Block" in
  let* _ := dispatch (ReceiveReusableBlocks [(reusableBlock, parsedBlock)]) in
  let* _ := dispatch (SaveReusableBlock (rb_id reusableBlock)) in
  let* referenceBlock :=
    draw (createBlock "core/block" {[ "ref" := rb_id reusableBlock ]} []) in
  let* _ := dispatch (ReplaceBlocks action_clientIds [referenceBlock]) in
  dispatch (ReceiveBlocks [parsedBlock]).


(** ** Specification vocabulary for the conversions *)

(** What a run of a cloning computation on [orig] must satisfy: the copies
    have the shapes of the originals and carry, in document order, exactly
    the identifiers the supply hands out from its current position. *)
Definition clonesOf (orig : list Block) (s : Supply)
    (r : list Block * Supply) : Prop :=
  map shape r.1 = map shape orig
  /\ blocksIds r.1 = seq (nextUuid s) (blocksSize orig)
  /\ r.2 = mkSupply (nextUuid s + blocksSize orig) (idCounter s).

(** The blocks a run of [convertBlockToStatic] hands to [replaceBlocks]
    when the reference, its record and the record's block all resolve. *)
Definition staticBlocks (referencedBlock : Block) : Gen (list Block) :=
  if decide (name referencedBlock = "core/template")
  then gmapM cloneBlock (innerBlocks referencedBlock)
  else gbind (cloneBlock referencedBlock) (fun b => gret [b]).


(** ** Template synchronisation *)

(** A template entry [[ name, attributes, innerBlocksTemplate ]]. *)
#[warnings="-register-all"]
Inductive TemplateEntry := mkTemplateEntry {
  t_name : string;
  t_attributes : Attributes;
  t_innerBlocks : list TemplateEntry;
}.

(** The induction principle that reaches the inner templates. *)
Section TemplateEntryInd.
Variable P : TemplateEntry -> Prop.
Hypothesis IH :
  forall n a inner, Forall P inner -> P (mkTemplateEntry n a inner).

Fixpoint TemplateEntry_nested_ind (t : TemplateEntry) : P t :=
  match t with
  | mkTemplateEntry n a inner =>
      IH n a inner
        ((fix go (l : list TemplateEntry) : Forall P l :=
            match l with
            | [] => @List.Forall_nil _ P
            | x :: l' =>
                @List.Forall_cons _ P x l' (TemplateEntry_nested_ind x) (go l')
            end) inner)
  end.
End TemplateEntryInd.

(** The shape a template entry asks for. *)
Fixpoint templateShape (t : TemplateEntry) : Shape :=
  mkShape (t_name t) (t_attributes t) (map templateShape (t_innerBlocks t)).

Fixpoint templateSize (t : TemplateEntry) : nat :=
  S (list_sum (map templateSize (t_innerBlocks t))).

(** Modelled from the spec: the block "based on the template" that
    [synchronizeBlocksWithTemplate] creates where the block list does not
    match: a brand-new node of the entry's type name with the entry's
    attributes, whose children are created from the inner template. *)
Fixpoint blockFromTemplate (t : TemplateEntry) : Gen Block :=
  gbind (gmapM blockFromTemplate (t_innerBlocks t)) (fun inner =>
  createBlock (t_name t) (t_attributes t) inner).

(** Position [i] of the result: keep [blocks[ i ]] when it exists and has
    the entry's name, otherwise create a block from the entry. *)
Definition synchronizeAt (blocks : list Block) (i : nat) (t : TemplateEntry)
    : Gen Block :=
  match blocks !! i with
  | Some block =>
      if decide (name block = t_name t) then gret block
      else blockFromTemplate t
  | None => blockFromTemplate t
  end.

Fixpoint synchronizeFrom (blocks : list Block) (i : nat)
    (template : list TemplateEntry) : Gen (list Block) :=
  match template with
  | [] => gret []
  | t :: template' =>
      gbind (synchronizeAt blocks i t) (fun b =>
      gbind (synchronizeFrom blocks (S i) template') (fun bs =>
      gret (b :: bs)))
  end.

(** Modelled from the spec: [synchronizeBlocksWithTemplate( blocks,
    template )] of [@wordpress/blocks], of which only the README entry is at
    hand ("we loop over the blocks keep the block as is if it matches the
    block at the same position in the template (If it has the same name) and
    if doesn't match, we create a new block based on the template.  Extra
    blocks not present in the template are removed.").  The spec walks
    template and tree position by position and compares type names at this
    level only. *)
Definition synchronizeBlocksWithTemplate (blocks : list Block)
    (template : list TemplateEntry) : Gen (list Block) :=
  synchronizeFrom blocks 0 template.

(** ** A block store, to run one handler after another *)

(** Every block of a list of trees, parents before children. *)
Fixpoint flattenBlock (b : Block) : list Block :=
  b :: flat_map flattenBlock (innerBlocks b).

Definition flattenBlocks (bs : list Block) : list Block :=
  flat_map flattenBlock bs.

(** Modelled from the spec: the document host ([getBlock],
    [replaceBlocks], [receiveBlocks]) and the fragment store, whose reducers
    and selectors are not at hand.  The host is kept as a table from client
    identifier to block, the fragment store as the list of received
    records, latest first. *)
Record Store := mkStore {
  blocksByClientId : gmap ClientId Block;
  reusableBlocks : list ReusableBlock;
}.

Definition insertBlocks (bs : list Block) (m : gmap ClientId Block)
    : gmap ClientId Block :=
  foldr (fun b acc => <[clientId b := b]> acc) m (flattenBlocks bs).

Definition removeBlocks (cs : list ClientId) (m : gmap ClientId Block)
    : gmap ClientId Block :=
  foldr (fun c acc =>
           match m !! c with
           | Some b => foldr delete acc (blockIds b)
           | None => acc
           end) m cs.

(** [replaceBlocks] drops the targets with their descendants and registers
    the new blocks; [receiveBlocks] registers blocks; receiving reusable
    blocks records them under their [id]; saving is the persistence step,
    which completes later and leaves the stores as they are. *)
Definition reduce (st : Store) (a : Action) : Store :=
  match a with
  | ReplaceBlocks cs bs =>
      mkStore (insertBlocks bs (removeBlocks cs (blocksByClientId st)))
        (reusableBlocks st)
  | ReceiveBlocks bs =>
      mkStore (insertBlocks bs (blocksByClientId st)) (reusableBlocks st)
  | ReceiveReusableBlocks results =>
      mkStore (blocksByClientId st) (map fst results ++ reusableBlocks st)
  | SaveReusableBlock _ => st
  end.

Definition hostOf (st : Store) : Host :=
  mkHost
    (fun c => blocksByClientId st !! c)
    (fun cs => omap (fun c => blocksByClientId st !! c) cs)
    (fun ref => find (fun rb => bool_decide (rb_id rb = ref)) (reusableBlocks st)).

(** The blocks a handler spliced in: the second argument of its last
    [replaceBlocks]. *)
Definition replacement (log : list Action) : option (list Block) :=
  last (omap (fun a => match a with
                       | ReplaceBlocks _ bs => Some bs
                       | _ => None
                       end) log).

(** Convert the blocks [cs] to a reusable block, let the stores take the
    dispatched actions, then convert the reference block that replaced them
    back to static blocks.  Answers what the second conversion spliced in. *)
Definition roundTrip (st : Store) (cs : list ClientId) (s : Supply)
    : option (list Block) :=
  let r1 := convertBlockToReusable (hostOf st) cs s in
  match value r1, replacement (dispatched r1) with
  | inr _, Some [referenceBlock] =>
      let st' := foldl reduce st (dispatched r1) in
      let r2 := convertBlockToStatic (hostOf st') (clientId referenceBlock)
                  (supplyAfter r1) in
      match value r2 with
      | inr _ => replacement (dispatched r2)
      | inl _ => None
      end
  | _, _ => None
  end.

(** ** Block selection of an editing context *)

(** [blockSelection] of a block-editor store: [start] and [end], each a
    client identifier or [null]. *)
Record Selection := mkSelection {
  selectionStart : option ClientId;
  selectionEnd : option ClientId;
}.

#[global] Instance Selection_eq_dec : EqDecision Selection.
Proof. solve_decision. Defined.

(** Modelled from the spec: the selection host of a context, whose reducer
    and selectors are not at hand.  Selecting a block makes it both ends of
    the range, a multi-selection sets the two ends, clearing empties the
    range; [hasSelectedBlock] tells whether something is selected. *)
Definition selectBlock (c : ClientId) : Selection :=
  mkSelection (Some c) (Some c).

Definition multiSelect (a b : ClientId) : Selection :=
  mkSelection (Some a) (Some b).

Definition clearSelectedBlock (sel : Selection) : Selection :=
  mkSelection None None.

Definition hasSelectedBlock (sel : Selection) : bool :=
  bool_decide (is_Some (selectionStart sel)).

(** A selection is non-empty when either end is set. *)
Definition nonEmpty (sel : Selection) : bool :=
  bool_decide (is_Some (selectionStart sel))
  || bool_decide (is_Some (selectionEnd sel)).

(** What the two observers act on: the selection of the editor in which the
    reusable block is rendered (reached through [props.clearSelectedBlock]),
    the selection of the embedded editor (reached through [this.registry])
    and the instance field [isSelectingInnerBlock], absent or [true]. *)
Record Contexts := mkContexts {
  parentSelection : Selection;
  childSelection : Selection;
  isSelectingInnerBlock : bool;
}.

#[global] Instance Contexts_eq_dec : EqDecision Contexts.
Proof. solve_decision. Defined.

Module SelectionObserver.

(** [componentDidUpdate( prevProps )] with the [hasSelectedBlock] prop of
    the previous and of the current render. *)
Definition componentDidUpdate (prevProps_hasSelectedBlock : bool)
    (props_hasSelectedBlock : bool) (onBlockSelected : Contexts -> Contexts)
    (w : Contexts) : Contexts :=
  if props_hasSelectedBlock && negb prevProps_hasSelectedBlock
  then onBlockSelected w
  else w.

End SelectionObserver.

Module ReusableBlockEdit.

Record State := mkState {
  cancelIncrementKey : N;
  isEditing : bool;
}.

(** The partial states the component passes to [setState]. *)
Inductive Update :=
| SetIsEditing (isEditing : bool)
| SetCancelIncrementKey (cancelIncrementKey : N).

(** A mounted component: [this.state] and the updates [setState] has
    queued during the handler that is running. *)
Record Component := mkComponent {
  state : State;
  pending : list Update;
}.

(** The constructor's [this.state]. *)
Definition initialState : State := mkState 0 false.

Definition setState (u : Update) (this : Component) : Component :=
  mkComponent (state this) (pending this ++ [u]).

Definition merge (st : State) (u : Update) : State :=
  match u with
  | SetIsEditing b => mkState (cancelIncrementKey st) b
  | SetCancelIncrementKey k => mkState k (isEditing st)
  end.

(** The queued updates are merged in order once the handler returns. *)
Definition flush (this : Component) : Component :=
  mkComponent (foldl merge (state this) (pending this)) [].

Definition toggleIsEditing (isEditing : bool) (this : Component) : Component :=
  setState (SetIsEditing isEditing) this.

Definition startEditing : Component -> Component := toggleIsEditing true.

Definition stopEditing : Component -> Component := toggleIsEditing false.

Definition cancelEditing (this : Component) : Component :=
  let this := stopEditing this in
  let cancelIncrementKey := cancelIncrementKey (state this) in
  let cancelIncrementKey := (cancelIncrementKey + 1)%N in
  setState (SetCancelIncrementKey cancelIncrementKey) this.

(** The handlers of the edit panel: [onEdit], [onSave], [onCancel]. *)
Inductive PanelEvent := OnEdit | OnSave | OnCancel.

Definition handler (e : PanelEvent) : Component -> Component :=
  match e with
  | OnEdit => startEditing
  | OnSave => stopEditing
  | OnCancel => cancelEditing
  end.

(** One user action: the handler runs, then the queue is merged. *)
Definition handle (e : PanelEvent) (this : Component) : Component :=
  flush (handler e this).

Definition onSelectedBlockChange (w : Contexts) : Contexts :=
  if isSelectingInnerBlock w
  then mkContexts (parentSelection w) (childSelection w) false
  else mkContexts (parentSelection w)
         (clearSelectedBlock (childSelection w)) (isSelectingInnerBlock w).

Definition onInnerBlockSelected (w : Contexts) : Contexts :=
  mkContexts (clearSelectedBlock (parentSelection w)) (childSelection w) true.

(** [componentDidUpdate( prevProps )] with the selection props of the
    previous and of the current render. *)
Definition componentDidUpdate (prevProps props : Selection) (w : Contexts)
    : Contexts :=
  let hasBlockSelectionChanged :=
    bool_decide (selectionStart props <> selectionStart prevProps)
    || bool_decide (selectionEnd props <> selectionEnd prevProps) in
  if hasBlockSelectionChanged then onSelectedBlockChange w else w.

(** The [wp_block] entity record, as far as the component uses it. *)
Record Post := mkPost {
  title : string;
  content : list Block;
}.

(** The selectors [withSelect] reads: [getEntityRecord( 'postType',
    'wp_block', ref )], [canUser( 'update', 'blocks', ref )], which answers
    a boolean or [undefined], [isResolving] of that entity request and the
    selection of the surrounding editor. *)
Record Selectors := mkSelectors {
  getEntityRecord : Js.Val -> option Post;
  canUser : Js.Val -> Js.Val;
  isResolving : Js.Val -> bool;
  blockSelection : Selection;
}.

Record Props := mkProps {
  isSelected : bool;
  reusableBlock : option Post;
  isFetching : bool;
  canUpdateBlock : bool;
  blockSelectionStart : option ClientId;
  blockSelectionEnd : option ClientId;
}.

Definition isTemporaryReusableBlock (ref : Js.Val) : bool :=
  negb (Js.isFinite ref).

(** The [withSelect] mapping; [isSelected] and [attributes] are own props. *)
Definition mapSelectToProps (select : Selectors) (isSelected : bool)
    (attributes : Attributes) : Props :=
  let ref := default Js.VUndefined (attributes !! "ref") in
  let isTemporaryReusableBlock := isTemporaryReusableBlock ref in
  let reusableBlock :=
    if negb isTemporaryReusableBlock then getEntityRecord select ref
    else None in
  mkProps isSelected reusableBlock (isResolving select ref)
    (bool_decide (is_Some reusableBlock)
     && negb isTemporaryReusableBlock
     && Js.truthy (canUser select ref))
    (selectionStart (blockSelection select))
    (selectionEnd (blockSelection select)).

Inductive PlaceholderContent :=
| Spinner
| Message (text : string).

Record EditPanel := mkEditPanel {
  panel_isEditing : bool;
  panel_isEditDisabled : bool;
}.

(** The rendered [EditorProvider] element with its children. *)
Record Editor := mkEditor {
  editor_key : N;
  editor_post : Post;
  editor_templateLock : bool;
  editor_panel : option EditPanel;
  editor_indicator : option string;
  editor_listDisabled : bool;
}.

Inductive Element :=
| Placeholder (c : PlaceholderContent)
| EditorProvider (e : Editor).

Definition render (props : Props) (st : State) : Element :=
  match reusableBlock props with
  | None =>
      Placeholder
        (if isFetching props then Spinner
         else Message "Block has been deleted or is unavailable.")
  | Some reusableBlock =>
      EditorProvider
        (mkEditor (cancelIncrementKey st) reusableBlock
           (negb (isEditing st))
           (if isSelected props || isEditing st
            then Some (mkEditPanel (isEditing st) (negb (canUpdateBlock props)))
            else None)
           (if negb (isSelected props) && negb (isEditing st)
            then Some (title reusableBlock)
            else None)
           (negb (isEditing st)))
  end.

(** Modelled from the spec: the mounted embedded editor.  Its private tree
    is seeded from the post it is mounted with and lives as long as the
    element keeps its key; an element with another key discards it and
    mounts a new one, and a placeholder unmounts it. *)
Record Mounted := mkMounted {
  mountedKey : N;
  privateTree : list Block;
}.

Definition reconcile (e : Element) (m : option Mounted) : option Mounted :=
  match e with
  | Placeholder _ => None
  | EditorProvider ed =>
      match m with
      | Some p =>
          if decide (mountedKey p = editor_key ed) then Some p
          else Some (mkMounted (editor_key ed) (content (editor_post ed)))
      | None => Some (mkMounted (editor_key ed) (content (editor_post ed)))
      end
  end.

End ReusableBlockEdit.

(** ** The two observers under re-rendering *)

(** Both contexts together with the props each observer was last rendered
    with. *)
Record System := mkSystem {
  contexts : Contexts;
  renderedParent : Selection;
  renderedChild : bool;
}.

#[global] Instance System_eq_dec : EqDecision System.
Proof. solve_decision. Defined.

(** One re-render: a component whose selected props differ from those of
    its last render updates and gets its [componentDidUpdate], the embedded
    [SelectionObserver] before the [ReusableBlockEdit] around it.  [None]
    when neither has anything to update. *)
Definition rerender (sys : System) : option System :=
  let w := contexts sys in
  let has := hasSelectedBlock (childSelection w) in
  if bool_decide (has <> renderedChild sys) then
    Some (mkSystem
            (SelectionObserver.componentDidUpdate (renderedChild sys) has
               ReusableBlockEdit.onInnerBlockSelected w)
            (renderedParent sys) has)
  else if bool_decide (parentSelection w <> renderedParent sys) then
    Some (mkSystem
            (ReusableBlockEdit.componentDidUpdate (renderedParent sys)
               (parentSelection w) w)
            (parentSelection w) (renderedChild sys))
  else None.

Definition settled (sys : System) : Prop := rerender sys = None.

Fixpoint settle (fuel : nat) (sys : System) : System :=
  match fuel with
  | 0 => sys
  | S fuel' =>
      match rerender sys with
      | Some sys' => settle fuel' sys'
      | None => sys
      end
  end.

Arguments settle : simpl never.
Arguments rerender : simpl never.

(** Selection events fired at one of the two contexts. *)
Inductive SelectionEvent :=
| ParentSelect (c : ClientId)
| ParentMultiSelect (a b : ClientId)
| ParentClear
| ChildSelect (c : ClientId)
| ChildClear.

Definition applyEvent (e : SelectionEvent) (w : Contexts) : Contexts :=
  match e with
  | ParentSelect c =>
      mkContexts (selectBlock c) (childSelection w) (isSelectingInnerBlock w)
  | ParentMultiSelect a b =>
      mkContexts (multiSelect a b) (childSelection w) (isSelectingInnerBlock w)
  | ParentClear =>
      mkContexts (clearSelectedBlock (parentSelection w)) (childSelection w)
        (isSelectingInnerBlock w)
  | ChildSelect c =>
      mkContexts (parentSelection w) (selectBlock c) (isSelectingInnerBlock w)
  | ChildClear =>
      mkContexts (parentSelection w) (clearSelectedBlock (childSelection w))
        (isSelectingInnerBlock w)
  end.

(** An event and the reaction to it.  Three re-renders are the longest
    cascade (see [fire_settled]); the fuel leaves one to spare. *)
Definition fire (sys : System) (e : SelectionEvent) : System :=
  settle 4 (mkSystem (applyEvent e (contexts sys))
              (renderedParent sys) (renderedChild sys)).

(** Both editors freshly mounted, nothing selected anywhere. *)
Definition initialSystem : System :=
  mkSystem (mkContexts (mkSelection None None) (mkSelection None None) false)
    (mkSelection None None) false.

(** At most one of the two selections is non-empty. *)
Definition exclusive (sys : System) : Prop :=
  ~ (nonEmpty (parentSelection (contexts sys)) = true
     /\ nonEmpty (childSelection (contexts sys)) = true).

(** The state the protocol maintains between reactions as long as the guard
    never goes stale: at rest, guard absent, the child's two ends agree on
    being set, and at most one selection non-empty. *)
Definition quiescent (sys : System) : Prop :=
  settled sys
  /\ isSelectingInnerBlock (contexts sys) = false
  /\ nonEmpty (childSelection (contexts sys))
     = hasSelectedBlock (childSelection (contexts sys))
  /\ exclusive sys.

(** The event that leaves the guard behind: a block of the embedded editor
    becomes selected while nothing is selected around it, so that clearing
    the surrounding selection changes nothing and [onSelectedBlockChange]
    does not run. *)
Definition leavesGuard (sys : System) (e : SelectionEvent) : bool :=
  match e with
  | ChildSelect _ =>
      negb (hasSelectedBlock (childSelection (contexts sys)))
      && negb (nonEmpty (parentSelection (contexts sys)))
  | _ => false
  end.

#[global] Instance PanelEvent_eq_dec : EqDecision ReusableBlockEdit.PanelEvent.
Proof. solve_decision. Defined.

(** How many of the user actions [es] are cancels. *)
Definition cancels (es : list ReusableBlockEdit.PanelEvent) : nat :=
  length (filter (fun e => e = ReusableBlockEdit.OnCancel) es).



Definition isReplaceBlocks (a : Action) : bool :=
  match a with
  | ReplaceBlocks _ _ => true
  | _ => false
  end.



(** The fixtures of the effect tests: a reference block with [ref: 123], the
    record [{ id: 123, title: 'My cool block' }] and its parsed block with
    two nested blocks. *)
Definition associatedBlock : Block :=
  mkBlock 1 "core/block" {[ "ref" := Js.VNum (Js.Finite 123) ]} [].

Definition parsedBlock : Block :=
  mkBlock 2 "core/test-block" {[ "name" := Js.VString "Big Bird" ]}
    [ mkBlock 3 "core/test-block"
        {[ "name" := Js.VString "Oscar the Grouch" ]} [];
      mkBlock 4 "core/test-block"
        {[ "name" := Js.VString "Cookie Monster" ]} [] ].


Definition testStore : Store :=
  mkStore (insertBlocks [associatedBlock; parsedBlock] ∅)
    [mkReusableBlock (Js.VNum (Js.Finite 123)) 2 "My cool block"].

(** The supply once the fixtures exist. *)
Definition testSupply : Supply := mkSupply 5 0.

(** The identifier [uniqueId( 'reusable' )] yields at counter value [k]. *)
Definition temporaryId (k : nat) : Js.Val :=
  Js.VString ("reusable" +:+ pretty k).

(** The supplies are ahead of the host: no record is stored under a
    temporary identifier the counter has yet to reach. *)
Definition counterAhead (h : Host) (s : Supply) : Prop :=
  forall k, idCounter s < k -> getReusableBlock h (temporaryId k) = None.

(** Modelled from the spec: the fragment store once it has received a
    record.  The record resolves under its [id]; every other identifier
    resolves as before. *)
Definition withRecord (rb : ReusableBlock) (h : Host) : Host :=
  mkHost (getBlock h) (getBlocksByClientId h)
    (fun ref => if decide (rb_id rb = ref) then Some rb
                else getReusableBlock h ref).

Definition recordsOf (a : Action) : list ReusableBlock :=
  match a with
  | ReceiveReusableBlocks results => map fst results
  | _ => []
  end.

(** The host once the fragment store has taken the records of the
    dispatched actions, in the order they were dispatched. *)
Definition receiveRecords (log : list Action) (h : Host) : Host :=
  foldl (fun h a => foldr withRecord h (recordsOf a)) h log.

(** What converting the single block [b], found under [c], produces when run
    from supply [s]: a record under a temporary identifier that no stored
    record uses and no other counter value yields, pointing at the block
    itself, and a new reference block whose [ref] is that identifier and
    whose [clientId] is newly drawn and differs from the block's.  The run
    draws one client identifier and advances the counter by one; once the
    fragment store has taken the record it resolves under its identifier,
    and the supplies are ahead of the host again. *)
Definition reusableConversionOf (h : Host) (c : ClientId) (b : Block)
    (s : Supply) (r : Outcome unit) : Prop :=
  let id := temporaryId (S (idCounter s)) in
  exists referenceBlock,
    value r = inr tt
    /\ dispatched r
       = [ReceiveReusableBlocks
            [(mkReusableBlock id (clientId b) "Untitled Reusable Block", b)];
          SaveReusableBlock id;
          ReplaceBlocks [c] [referenceBlock];
          ReceiveBlocks [b]]
    /\ name referenceBlock = "core/block"
    /\ attribute referenceBlock "ref" = id
    /\ attributes referenceBlock = {[ "ref" := id ]}
    /\ innerBlocks referenceBlock = []
    /\ clientId referenceBlock = nextUuid s
    /\ clientId referenceBlock <> clientId b
    /\ getReusableBlock h id = None
    /\ ReusableBlockEdit.isTemporaryReusableBlock id = true
    /\ (forall k, k <> S (idCounter s) -> temporaryId k <> id)
    /\ supplyAfter r = mkSupply (S (nextUuid s)) (S (idCounter s))
    /\ getReusableBlock (receiveRecords (dispatched r) h) id
       = Some (mkReusableBlock id (clientId b) "Untitled Reusable Block")
    /\ counterAhead (receiveRecords (dispatched r) h) (supplyAfter r).

(** A block of the group type with one child, as a conversion of a
    selection leaves it in the store, and a store that holds it. *)
Definition templateBlock : Block :=
  mkBlock 1 "core/template" ∅ [mkBlock 2 "core/test-block" ∅ []].

Definition templateStore : Store :=
  mkStore (insertBlocks [templateBlock] ∅) [].

(** The system at rest on the contexts [w]: both observers have rendered
    what the stores hold. *)
Definition rest (w : Contexts) : System :=
  mkSystem w (parentSelection w) (hasSelectedBlock (childSelection w)).

(** The contexts in which the reaction to [e], fired at rest on [w], ends
    (see [fire_rest]). *)
Definition reaction (w : Contexts) (e : SelectionEvent) : Contexts :=
  let w0 := applyEvent e w in
  match e with
  | ChildSelect _ =>
      if hasSelectedBlock (childSelection w) then w0
      else
        let w1 := ReusableBlockEdit.onInnerBlockSelected w0 in
        if decide (parentSelection w1 = parentSelection w) then w1
        else ReusableBlockEdit.onSelectedBlockChange w1
  | ChildClear => w0
  | _ =>
      if decide (parentSelection w0 = parentSelection w) then w0
      else ReusableBlockEdit.onSelectedBlockChange w0
  end.

(** [b'] is a block created from the entry [t] by a run that started at
    supply [s]: it has the shape the entry asks for and every identifier in
    it was drawn during the run. *)
Definition createdFrom (t : TemplateEntry) (s : Supply) (b' : Block) : Prop :=
  shape b' = templateShape t
  /\ Forall (fun i => nextUuid s <= i) (blockIds b').

(** The record of the effect tests once the store has received it. *)
Definition testRecord : ReusableBlock :=
  mkReusableBlock (Js.VNum (Js.Finite 123)) 2 "My cool block".

(** A block list and a template for it: the first entry matches, the second
    asks for a heading with a nested paragraph where the list has an
    image, the third has no counterpart. *)
Definition testBlocks : list Block :=
  [ mkBlock 1 "core/paragraph" ∅ [];
    mkBlock 2 "core/image" ∅ [mkBlock 3 "core/paragraph" ∅ []];
    mkBlock 4 "core/quote" ∅ [] ].

Definition headingEntry : TemplateEntry :=
  mkTemplateEntry "core/heading" ∅ [mkTemplateEntry "core/paragraph" ∅ []].

Definition testTemplate : list TemplateEntry :=
  [ mkTemplateEntry "core/paragraph" ∅ []; headingEntry ].

(** A session in the middle of an edit, its private tree changed from the
    post's content. *)
Definition testPost : ReusableBlockEdit.Post :=
  ReusableBlockEdit.mkPost "My cool block" [parsedBlock].

Definition testProps : ReusableBlockEdit.Props :=
  ReusableBlockEdit.mkProps true (Some testPost) false true (Some 1) (Some 1).

Definition editingComponent : ReusableBlockEdit.Component :=
  ReusableBlockEdit.mkComponent (ReusableBlockEdit.mkState 3 true) [].

Definition editedMount : ReusableBlockEdit.Mounted :=
  ReusableBlockEdit.mkMounted 3 [associatedBlock].


(** ** Vocabulary for further properties *)

(** No event of the trace, fired in turn from [sys], leaves the guard
    behind. *)
Fixpoint guardSafe (sys : System) (es : list SelectionEvent) : bool :=
  match es with
  | [] => true
  | e :: es' => negb (leavesGuard sys e) && guardSafe (fire sys e) es'
  end.

(** The selection an event gives the surrounding editor, if it is fired
    there. *)
Definition parentTarget (w : Contexts) (e : SelectionEvent)
    : option Selection :=
  match e with
  | ParentSelect c => Some (selectBlock c)
  | ParentMultiSelect a b => Some (multiSelect a b)
  | ParentClear => Some (clearSelectedBlock (parentSelection w))
  | _ => None
  end.

(** ** e2e test utilities *)

(** A registered block type, as far as [getBlockNameByTitle] reads it. *)
Record BlockType := mkBlockType {
  bt_name : string;
  bt_title : string;
}.

(** The function [getBlockNameByTitle] evaluates in the page, on the list
    [getBlockTypes()] answers: the first block type with the given title,
    then [blockType && blockType.name], which is [undefined] ([None]) when
    there is none. *)
Definition getBlockNameByTitle (blockTypes : list BlockType)
    (title : string) : option string :=
  let blockType :=
    find (fun block => bool_decide (bt_title block = title)) blockTypes in
  match blockType with
  | Some blockType => Some (bt_name blockType)
  | None => None
  end.

(** The block types the effect tests register. *)
Definition testBlockTypes : list BlockType :=
  [ mkBlockType "core/test-block" "Test block";
    mkBlockType "core/block" "Reusable Block" ].
Lemma cloneBlock_unfold (b : Block) :
  cloneBlock b =
  gbind uuid (fun c =>
  gbind (gmapM cloneBlock (innerBlocks b)) (fun inner =>
  gret (mkBlock c (name b) (attributes b) inner))).
Proof.
  destruct b as [c n a inner]; unfold cloneBlock; simpl.
  rewrite (left_id_L ∅ (∪) a). reflexivity.
Qed.

(** ** Facts about cloning *)

Lemma gmapM_clonesOf (bs : list Block) :
  Forall (fun b => forall s, clonesOf [b] s
                      (let (b', s') := cloneBlock b s in ([b'], s'))) bs ->
  forall s, clonesOf bs s (gmapM cloneBlock bs s).
Proof.
  induction 1 as [|b bs Hb _ IH]; intros s.
  - unfold clonesOf; simpl. rewrite Nat.add_0_r. by destruct s.
  - simpl. unfold gbind at 1.
    specialize (Hb s). destruct (cloneBlock b s) as [b' s1].
    destruct Hb as (Hsh & Hids & Hs1); simpl in *.
    unfold gbind at 1. specialize (IH s1).
    destruct (gmapM cloneBlock bs s1) as [bs' s2].
    destruct IH as (Hsh' & Hids' & Hs2); simpl in *.
    unfold clonesOf, blocksSize, blocksIds in *; simpl in *.
    rewrite !app_nil_r, !Nat.add_0_r in *.
    injection Hsh as Hsh. subst s1; simpl in *.
    split; [by rewrite Hsh, Hsh'|].
    split.
    + rewrite Hids, Hids', seq_app. done.
    + rewrite Hs2. f_equal. lia.
Qed.

Lemma cloneBlock_clonesOf (b : Block) (s : Supply) :
  clonesOf [b] s (let (b', s') := cloneBlock b s in ([b'], s')).
Proof.
  revert s. induction b as [c n a inner IH] using Block_nested_ind.
  intros s. rewrite cloneBlock_unfold. unfold gbind at 1. simpl.
  unfold gbind at 1.
  pose proof (gmapM_clonesOf inner IH
                (mkSupply (S (nextUuid s)) (idCounter s))) as H.
  destruct (gmapM cloneBlock inner _) as [inner' s'].
  destruct H as (Hsh & Hids & Hs'); simpl in *.
  unfold clonesOf, blocksSize, blocksIds in *; simpl in *.
  rewrite !app_nil_r, !Nat.add_0_r.
  split; [by rewrite Hsh|].
  split; [by rewrite Hids|].
  rewrite Hs'. f_equal. lia.
Qed.


(** ** Conversion to static blocks *)

Lemma ebind_eret {A B} (a : A) (k : A -> Eff B) (s : Supply) :
  ebind (eret a) k s = k a s.
Proof. unfold ebind, eret; simpl. by destruct (k a s). Qed.

Lemma ebind_throw {A B} (e : Error) (k : A -> Eff B) (s : Supply) :
  ebind (throw e) k s = mkOutcome (inl e) s [].
Proof. reflexivity. Qed.

Lemma ebind_draw {A B} (g : Gen A) (k : A -> Eff B) (s : Supply) :
  ebind (draw g) k s = k (g s).1 (g s).2.
Proof.
  unfold ebind, draw; simpl. destruct (g s) as [a s']; simpl.
  by destruct (k a s').
Qed.

Lemma ebind_dispatch {B} (a : Action) (k : unit -> Eff B) (s : Supply) :
  ebind (dispatch a) k s =
  mkOutcome (value (k tt s)) (supplyAfter (k tt s)) (a :: dispatched (k tt s)).
Proof. reflexivity. Qed.

Lemma convertBlockToStatic_resolved (h : Host) (c : ClientId) (s : Supply)
    (oldBlock referencedBlock : Block) (rb : ReusableBlock) :
  getBlock h c = Some oldBlock ->
  getReusableBlock h (attribute oldBlock "ref") = Some rb ->
  getBlock h (rb_clientId rb) = Some referencedBlock ->
  convertBlockToStatic h c s =
  mkOutcome (inr tt) (staticBlocks referencedBlock s).2
    [ReplaceBlocks [clientId oldBlock] (staticBlocks referencedBlock s).1].
Proof.
  intros Hold Hrb Href. unfold convertBlockToStatic.
  rewrite Hold; simpl. rewrite ebind_eret, Hrb; simpl.
  rewrite ebind_eret, Href; simpl. rewrite ebind_eret.
  unfold staticBlocks. destruct (decide _); by rewrite ebind_draw.
Qed.

Lemma staticBlocks_clonesOf (referencedBlock : Block) (s : Supply) :
  clonesOf
    (if decide (name referencedBlock = "core/template")
     then innerBlocks referencedBlock else [referencedBlock])
    s (staticBlocks referencedBlock s).
Proof.
  unfold staticBlocks. destruct (decide _).
  - apply gmapM_clonesOf, Forall_forall. intros b _ s'.
    apply cloneBlock_clonesOf.
  - unfold gbind, gret. pose proof (cloneBlock_clonesOf referencedBlock s) as H.
    by destruct (cloneBlock referencedBlock s).
Qed.

Lemma blocksIds_sub (b : Block) :
  forall i, i ∈ blocksIds (innerBlocks b) -> i ∈ blockIds b.
Proof. destruct b; simpl. intros i Hi. by apply elem_of_cons; right. Qed.

Lemma blocksIds_length (bs : list Block) :
  length (blocksIds bs) = blocksSize bs.
Proof.
  unfold blocksIds, blocksSize.
  induction bs as [|b bs IH]; [done|]. simpl. rewrite length_app, IH.
  f_equal. clear IH bs.
  induction b as [c n a inner IH] using Block_nested_ind. simpl. f_equal.
  induction IH as [|x l Hx _ IHl]; [done|]. simpl.
  by rewrite length_app, Hx, IHl.
Qed.

(** C2.  When the reference block, its reusable-block record and the
    record's block all resolve, [convertBlockToStatic] succeeds and
    dispatches one [replaceBlocks] whose new blocks are: for a
    ["core/template"] root one clone per child, otherwise a single clone of
    the root.  The new blocks have the shapes of what they copy; their
    identifiers, nested ones included, are exactly those the supply
    allocates during the call, contain no duplicate, and none of them occurs
    in the fragment's block. *)
Theorem convertBlockToStatic_clones (h : Host) (c : ClientId) (s : Supply)
    (oldBlock referencedBlock : Block) (rb : ReusableBlock) :
  getBlock h c = Some oldBlock ->
  getReusableBlock h (attribute oldBlock "ref") = Some rb ->
  getBlock h (rb_clientId rb) = Some referencedBlock ->
  Forall (fun i => i < nextUuid s) (blockIds referencedBlock) ->
  exists newBlocks,
    let r := convertBlockToStatic h c s in
    value r = inr tt
    /\ dispatched r = [ReplaceBlocks [clientId oldBlock] newBlocks]
    /\ Forall2 (fun b' b => shape b' = shape b) newBlocks
         (if decide (name referencedBlock = "core/template")
          then innerBlocks referencedBlock else [referencedBlock])
    /\ blocksIds newBlocks
       = seq (nextUuid s) (nextUuid (supplyAfter r) - nextUuid s)
    /\ NoDup (blocksIds newBlocks)
    /\ (forall i, i ∈ blocksIds newBlocks -> i ∉ blockIds referencedBlock).
Proof.
  intros Hold Hrb Href Hfresh.
  rewrite (convertBlockToStatic_resolved h c s _ _ _ Hold Hrb Href).
  pose proof (staticBlocks_clonesOf referencedBlock s) as (Hsh & Hids & Hs).
  destruct (staticBlocks referencedBlock s) as [newBlocks s']; simpl in *.
  exists newBlocks. split; [done|]. split; [done|].
  assert (Hseq : blocksIds newBlocks = seq (nextUuid s) (nextUuid s' - nextUuid s)).
  { rewrite Hids, Hs; simpl. f_equal. lia. }
  split.
  { clear -Hsh. revert Hsh.
    generalize (if decide (name referencedBlock = "core/template")
                then innerBlocks referencedBlock else [referencedBlock]).
    induction newBlocks as [|b' bs' IH]; intros [|b bs] Heq; simplify_eq/=;
      constructor; auto. }
  split; [done|]. split.
  - rewrite Hseq. apply NoDup_seq.
  - intros i Hi Hin. rewrite Hseq in Hi. apply elem_of_seq in Hi.
    rewrite Forall_forall in Hfresh. specialize (Hfresh i Hin). lia.
Qed.

(** ** The selection protocol *)

Lemma settle_S (n : nat) (sys : System) :
  settle (S n) sys
  = match rerender sys with Some sys' => settle n sys' | None => sys end.
Proof. reflexivity. Qed.

Lemma rerender_rest (w : Contexts) : rerender (rest w) = None.
Proof.
  unfold rerender, rest; simpl. by rewrite !bool_decide_eq_false_2 by auto.
Qed.

Lemma settle_rest (n : nat) (w : Contexts) : settle n (rest w) = rest w.
Proof. destruct n; [done|]. by rewrite settle_S, rerender_rest. Qed.

Lemma settled_rest (sys : System) : settled sys <-> sys = rest (contexts sys).
Proof.
  split; [|intros ->; apply rerender_rest].
  unfold settled, rerender, rest. destruct sys as [w rp rc]; simpl.
  intros H. repeat case_bool_decide; try discriminate.
  f_equal.
  - by destruct (decide (parentSelection w = rp)); [|exfalso; auto].
  - by destruct rc, (hasSelectedBlock _); try done; exfalso; auto.
Qed.

Lemma componentDidUpdate_changed (prevProps props : Selection)
    (w : Contexts) :
  ReusableBlockEdit.componentDidUpdate prevProps props w
  = if decide (props = prevProps) then w
    else ReusableBlockEdit.onSelectedBlockChange w.
Proof.
  unfold ReusableBlockEdit.componentDidUpdate.
  destruct prevProps as [s e], props as [s' e']; simpl.
  destruct (decide (s' = s)) as [->|Hs], (decide (e' = e)) as [->|He].
  - rewrite !bool_decide_eq_false_2 by auto. simpl. by rewrite decide_True.
  - rewrite (bool_decide_eq_true_2 (e' <> e)) by done.
    rewrite orb_true_r, decide_False; [done|congruence].
  - rewrite (bool_decide_eq_true_2 (s' <> s)) by done. simpl.
    rewrite decide_False; [done|congruence].
  - rewrite (bool_decide_eq_true_2 (s' <> s)) by done. simpl.
    rewrite decide_False; [done|congruence].
Qed.

(** The surrounding selection changed while the embedded one shows as
    rendered: [onSelectedBlockChange] runs, and the observer of the embedded
    editor then only takes note of what it did. *)
Lemma settle_parent_changed (n : nat) (w : Contexts) (rp : Selection) :
  parentSelection w <> rp ->
  settle (S (S n)) (mkSystem w rp (hasSelectedBlock (childSelection w)))
  = rest (ReusableBlockEdit.onSelectedBlockChange w).
Proof.
  intros Hp. rewrite settle_S. unfold rerender at 1; simpl.
  rewrite bool_decide_eq_false_2 by auto.
  rewrite bool_decide_eq_true_2 by done.
  rewrite componentDidUpdate_changed, decide_False by done.
  destruct w as [p [cs ce] g]; simpl in *.
  unfold ReusableBlockEdit.onSelectedBlockChange; simpl.
  destruct g; simpl.
  - apply (settle_rest (S n) (mkContexts p (mkSelection cs ce) false)).
  - rewrite settle_S. unfold rerender at 1, hasSelectedBlock; simpl.
    destruct cs as [c|]; simpl.
    + apply (settle_rest n (mkContexts p (mkSelection None None) false)).
    + rewrite bool_decide_eq_false_2 by auto. reflexivity.
Qed.

(** The reaction to an event fired at rest ends at rest on [reaction],
    whatever fuel beyond three re-renders is given. *)
Lemma settle_event (k : nat) (w : Contexts) (e : SelectionEvent) :
  settle (3 + k)
    (mkSystem (applyEvent e w) (parentSelection w)
       (hasSelectedBlock (childSelection w)))
  = rest (reaction w e).
Proof.
  destruct w as [p [cs ce] g].
  set (w := mkContexts p (mkSelection cs ce) g).
  assert (Hparent : forall p',
    settle (3 + k)
      (mkSystem (mkContexts p' (childSelection w) (isSelectingInnerBlock w))
         (parentSelection w) (hasSelectedBlock (childSelection w)))
    = rest (let w0 := mkContexts p' (childSelection w)
                        (isSelectingInnerBlock w) in
            if decide (p' = parentSelection w) then w0
            else ReusableBlockEdit.onSelectedBlockChange w0)).
  { intros p'. cbv zeta. subst w. cbn [parentSelection childSelection
                                       isSelectingInnerBlock].
    case_decide as Hd.
    - subst p'.
      apply (settle_rest (3 + k) (mkContexts p (mkSelection cs ce) g)).
    - by apply (settle_parent_changed (1 + k)
                  (mkContexts p' (mkSelection cs ce) g)). }
  destruct e as [c|a b| |c|]; unfold reaction;
    cbn [applyEvent contexts renderedParent renderedChild rest
         parentSelection childSelection isSelectingInnerBlock];
    try apply Hparent.
  - (* ChildSelect *)
    subst w; simpl.
    unfold hasSelectedBlock at 1 2; simpl. destruct cs as [c'|]; simpl.
    + apply (settle_rest (3 + k) (mkContexts p (selectBlock c) g)).
    + rewrite settle_S. unfold rerender at 1, hasSelectedBlock; simpl.
      unfold SelectionObserver.componentDidUpdate,
        ReusableBlockEdit.onInnerBlockSelected; simpl.
      destruct (decide (clearSelectedBlock p = p)) as [Heq|Hne].
      * unfold clearSelectedBlock in *. rewrite <- Heq.
        apply (settle_rest (2 + k)
                 (mkContexts (mkSelection None None) (selectBlock c) true)).
      * apply (settle_parent_changed k
                 (mkContexts (clearSelectedBlock p) (selectBlock c) true) p Hne).
  - (* ChildClear *)
    subst w; simpl.
    unfold hasSelectedBlock; simpl. destruct cs as [c'|]; simpl.
    + rewrite settle_S. unfold rerender at 1, hasSelectedBlock; simpl.
      unfold SelectionObserver.componentDidUpdate; simpl.
      apply (settle_rest (2 + k) (mkContexts p (mkSelection None None) g)).
    + apply (settle_rest (3 + k) (mkContexts p (mkSelection None None) g)).
Qed.

Lemma fire_rest (w : Contexts) (e : SelectionEvent) :
  fire (rest w) e = rest (reaction w e).
Proof. exact (settle_event 1 w e). Qed.

Lemma settled_inv (sys : System) :
  settled sys <->
  renderedChild sys = hasSelectedBlock (childSelection (contexts sys))
  /\ renderedParent sys = parentSelection (contexts sys).
Proof.
  rewrite settled_rest. destruct sys as [w rp rc]; unfold rest; simpl.
  split; [by intros [= -> ->]|by intros [-> ->]].
Qed.

(** The reaction to an event comes to rest within the fuel of [fire]. *)
Lemma fire_settled (sys : System) (e : SelectionEvent) :
  settled sys -> settled (fire sys e).
Proof.
  rewrite !settled_rest. intros ->. by rewrite fire_rest.
Qed.

Ltac decide_visible :=
  repeat first
    [ progress simplify_eq/=
    | case_bool_decide
    | case_decide
    | match goal with
      | H : is_Some None |- _ => destruct H; discriminate
      | H : ~ is_Some (Some _) |- _ => destruct H; eexists; reflexivity
      | H : ?x <> ?x |- _ => destruct H; reflexivity
      end ].

Ltac unfold_reaction :=
  unfold reaction, exclusive, leavesGuard, rest, hasSelectedBlock, nonEmpty,
    ReusableBlockEdit.onSelectedBlockChange,
    ReusableBlockEdit.onInnerBlockSelected,
    selectBlock, multiSelect, clearSelectedBlock in *;
  simpl in *.

(** Exclusivity is kept by every event that does not leave the guard
    behind. *)
Lemma quiescent_fire (sys : System) (e : SelectionEvent) :
  quiescent sys -> leavesGuard sys e = false -> quiescent (fire sys e).
Proof.
  intros (Hs & Hg & Hc & Hex) Hl.
  split; [by apply fire_settled|].
  apply settled_rest in Hs. rewrite Hs in *. rewrite fire_rest.
  destruct (contexts sys) as [[ps pe] [cs ce] g]. clear Hs.
  unfold_reaction. subst g.
  destruct ps, pe, cs, ce, e; decide_visible;
    repeat split; try done;
    try (exfalso; apply Hex; done); intros [? ?]; done.
Qed.

(** C1.  Started with nothing selected anywhere, selecting a block of the
    embedded editor and then a block of the surrounding editor ends, both
    reactions at rest, with both selections non-empty: the guard set by the
    first event was never consumed, because clearing the already empty outer
    selection changed no prop, and it shields the inner selection from the
    second event. *)
Theorem selection_exclusivity_stale_guard :
  let sys1 := fire initialSystem (ChildSelect 1) in
  let sys2 := fire sys1 (ParentSelect 2) in
  settled sys1
  /\ isSelectingInnerBlock (contexts sys1) = true
  /\ settled sys2
  /\ nonEmpty (parentSelection (contexts sys2)) = true
  /\ nonEmpty (childSelection (contexts sys2)) = true
  /\ ~ exclusive sys2.
Proof.
  repeat split; try reflexivity.
  intros H. apply H. split; reflexivity.
Qed.

Lemma quiescent_initial : quiescent initialSystem.
Proof. repeat split; try reflexivity. intros [H _]; discriminate. Qed.

(** A block of the embedded editor becomes selected while something is
    selected around it: the guard is set and consumed within the one
    reaction, the outer selection is cleared, the inner one stays. *)
Lemma child_select_consumes_guard (sys : System) (c : ClientId) :
  quiescent sys ->
  hasSelectedBlock (childSelection (contexts sys)) = false ->
  nonEmpty (parentSelection (contexts sys)) = true ->
  contexts (fire sys (ChildSelect c))
  = mkContexts (mkSelection None None) (selectBlock c) false.
Proof.
  intros (Hs & Hg & Hc & Hex) Hchild Hparent.
  apply settled_rest in Hs. rewrite Hs in *. rewrite fire_rest.
  destruct (contexts sys) as [[ps pe] [cs ce] g]. clear Hs.
  unfold_reaction. subst g.
  destruct ps, pe, cs, ce; decide_visible; done.
Qed.

(** C7.  The child-side observer sets the guard exactly on the transition
    from nothing selected to something selected, at the same time clearing
    the selection of the surrounding editor, and otherwise changes nothing;
    the parent-side reaction leaves the inner selection alone when it finds
    the guard and clears it when it does not; after the reaction the guard
    is absent in either case, so a second reaction clears the inner
    selection. *)
Theorem guard_one_shot (w : Contexts) (prev has : bool) :
  let w1 := SelectionObserver.componentDidUpdate prev has
              ReusableBlockEdit.onInnerBlockSelected w in
  let w2 := ReusableBlockEdit.onSelectedBlockChange w in
  (if has && negb prev
   then isSelectingInnerBlock w1 = true
        /\ parentSelection w1 = mkSelection None None
        /\ childSelection w1 = childSelection w
   else w1 = w)
  /\ (if isSelectingInnerBlock w
      then childSelection w2 = childSelection w
      else childSelection w2 = mkSelection None None)
  /\ isSelectingInnerBlock w2 = false
  /\ parentSelection w2 = parentSelection w
  /\ childSelection (ReusableBlockEdit.onSelectedBlockChange w2)
     = mkSelection None None.
Proof.
  destruct w as [p c g]; simpl.
  unfold SelectionObserver.componentDidUpdate,
    ReusableBlockEdit.onSelectedBlockChange,
    ReusableBlockEdit.onInnerBlockSelected; simpl.
  destruct has, prev, g; simpl; repeat split; reflexivity.
Qed.

(** ** The editing session *)

Import ReusableBlockEdit.

Lemma handle_state (e : PanelEvent) (this : Component) :
  pending this = [] ->
  handle e this
  = mkComponent
      (match e with
       | OnEdit => mkState (cancelIncrementKey (state this)) true
       | OnSave => mkState (cancelIncrementKey (state this)) false
       | OnCancel => mkState (cancelIncrementKey (state this) + 1)%N false
       end) [].
Proof.
  destruct this as [[k ed] q]; simpl. intros ->. by destruct e.
Qed.

Lemma handle_sequence (es : list PanelEvent) (this : Component) :
  pending this = [] ->
  pending (foldl (fun c e => handle e c) this es) = []
  /\ cancelIncrementKey (state (foldl (fun c e => handle e c) this es))
     = (cancelIncrementKey (state this) + N.of_nat (cancels es))%N.
Proof.
  revert this. induction es as [|e es IH]; intros this Hp; simpl.
  - split; [done|]. unfold cancels; simpl. lia.
  - destruct (IH (handle e this)) as [Hq Hk].
    { by rewrite handle_state. }
    split; [done|]. rewrite Hk, (handle_state e this Hp).
    unfold cancels. rewrite filter_cons.
    destruct e; simpl; repeat case_decide; simplify_eq; simpl; lia.
Qed.

(** C8.  Cancelling leaves the session locked with [cancelIncrementKey]
    one higher, and the next render mounts the embedded editor anew, its
    private tree being the content of the reusable block whatever the
    discarded tree held.  Starting and saving keep the key; over any
    sequence of user actions the key grows by the number of cancels. *)
Theorem cancelEditing_resets (this : Component) (props : Props) (post : Post)
    (m : Mounted) (es : list PanelEvent) :
  pending this = [] ->
  isEditing (state this) = true ->
  reusableBlock props = Some post ->
  mountedKey m = cancelIncrementKey (state this) ->
  let key := cancelIncrementKey (state this) in
  let this' := handle OnCancel this in
  isEditing (state this') = false
  /\ cancelIncrementKey (state this') = (key + 1)%N
  /\ reconcile (render props (state this')) (Some m)
     = Some (mkMounted (key + 1)%N (content post))
  /\ cancelIncrementKey (state (handle OnEdit this)) = key
  /\ cancelIncrementKey (state (handle OnSave this)) = key
  /\ reconcile (render props (state (handle OnSave this))) (Some m) = Some m
  /\ cancelIncrementKey (state (foldl (fun c e => handle e c) this es))
     = (key + N.of_nat (cancels es))%N.
Proof.
  intros Hp Hed Hprops Hm key this'. subst this'.
  rewrite !handle_state by done. cbn [state cancelIncrementKey isEditing].
  split; [done|]. split; [done|]. split.
  { unfold render, reconcile. rewrite Hprops; simpl.
    rewrite decide_False by (fold key; lia). done. }
  split; [done|]. split; [done|]. split.
  { unfold render, reconcile. rewrite Hprops; simpl.
    by rewrite decide_True. }
  by apply handle_sequence.
Qed.

(** ** Props of the reusable block *)

Lemma isTemporaryReusableBlock_spec (ref : Js.Val) :
  isTemporaryReusableBlock ref = true <-> forall z, ref <> Js.VNum (Js.Finite z).
Proof.
  unfold isTemporaryReusableBlock. split.
  - intros H z ->. discriminate.
  - intros H. destruct ref as [| |b|[z| | |]|str]; try reflexivity.
    by destruct (H z).
Qed.

(** C10.  A reference counts as temporary exactly when its [ref] is not a
    finite number.  For a temporary reference the record is not looked up:
    [reusableBlock] is undefined whatever the entity store holds, and the
    block renders as a placeholder.  [canUpdateBlock] holds exactly when the
    reference is not temporary, the record exists and [canUser] answers
    something truthy; an edit panel, when rendered, gets
    [isEditDisabled = ! canUpdateBlock]. *)
Theorem temporary_reference_props (select : Selectors) (selected : bool)
    (attrs : Attributes) (st : State) :
  let ref := default Js.VUndefined (attrs !! "ref") in
  let props := mapSelectToProps select selected attrs in
  (isTemporaryReusableBlock ref = true
   <-> forall z, ref <> Js.VNum (Js.Finite z))
  /\ reusableBlock props
     = (if isTemporaryReusableBlock ref then None
        else getEntityRecord select ref)
  /\ (if isTemporaryReusableBlock ref
      then canUpdateBlock props = false
           /\ exists c, render props st = Placeholder c
      else True)
  /\ (canUpdateBlock props = true
      <-> isTemporaryReusableBlock ref = false
          /\ is_Some (getEntityRecord select ref)
          /\ Js.truthy (canUser select ref) = true)
  /\ match render props st with
     | EditorProvider ed =>
         match editor_panel ed with
         | Some panel =>
             panel_isEditDisabled panel = negb (canUpdateBlock props)
         | None => True
         end
     | Placeholder _ => True
     end.
Proof.
  simpl. set (ref := default Js.VUndefined (attrs !! "ref")).
  split; [apply isTemporaryReusableBlock_spec|].
  unfold mapSelectToProps, render; simpl. fold ref.
  destruct (isTemporaryReusableBlock ref) eqn:Htemp; simpl.
  - split; [done|]. split; [split; [done|by eexists]|].
    split; [|done]. split; [done|]. intros (? & _); done.
  - split; [done|]. split; [done|]. split.
    + rewrite !andb_true_iff, bool_decide_eq_true. tauto.
    + destruct (getEntityRecord select ref); [|done]. simpl.
      by destruct (selected || isEditing st).
Qed.

(** ** Unresolved lookups *)


Lemma convertBlockToReusable_single (h : Host) (c : ClientId) (s : Supply) :
  convertBlockToReusable h [c] s =
  let id := Js.VString ("reusable" +:+ pretty (S (idCounter s))) in
  match getBlock h c with
  | None =>
      mkOutcome (inl (TypeError "clientId"))
        (mkSupply (nextUuid s) (S (idCounter s))) []
  | Some parsedBlock =>
      mkOutcome (inr tt) (mkSupply (S (nextUuid s)) (S (idCounter s)))
        [ReceiveReusableBlocks
           [(mkReusableBlock id (clientId parsedBlock)
               "Untitled Reusable Block", parsedBlock)];
         SaveReusableBlock id;
         ReplaceBlocks [c]
           [mkBlock (nextUuid s) "core/block" {[ "ref" := id ]} []];
         ReceiveBlocks [parsedBlock]]
  end.
Proof.
  unfold convertBlockToReusable. rewrite ebind_eret, ebind_draw. simpl.
  by destruct (getBlock h c).
Qed.

Lemma convertBlockToReusable_multi (h : Host) (cs : list ClientId)
    (s : Supply) :
  length cs <> 1 ->
  convertBlockToReusable h cs s =
  let id := Js.VString ("reusable" +:+ pretty (S (idCounter s))) in
  let parsedBlock :=
    mkBlock (nextUuid s) "core/template" ∅ (getBlocksByClientId h cs) in
  mkOutcome (inr tt) (mkSupply (S (S (nextUuid s))) (S (idCounter s)))
    [ReceiveBlocks [parsedBlock];
     ReceiveReusableBlocks
       [(mkReusableBlock id (clientId parsedBlock)
           "Untitled Reusable Block", parsedBlock)];
     SaveReusableBlock id;
     ReplaceBlocks cs
       [mkBlock (S (nextUuid s)) "core/block" {[ "ref" := id ]} []];
     ReceiveBlocks [parsedBlock]].
Proof.
  intros Hlen. unfold convertBlockToReusable.
  destruct cs as [|c [|c' cs]]; try done.
Qed.



(** ** The block store *)

Lemma flattenBlock_ids (b : Block) :
  map clientId (flattenBlock b) = blockIds b.
Proof.
  induction b as [c n a inner IH] using Block_nested_ind. simpl. f_equal.
  induction IH as [|x l Hx _ IHl]; [done|]. simpl.
  by rewrite map_app, Hx, IHl.
Qed.

Lemma flattenBlocks_ids (bs : list Block) :
  map clientId (flattenBlocks bs) = blocksIds bs.
Proof.
  unfold flattenBlocks, blocksIds.
  induction bs as [|b bs IH]; [done|]. simpl.
  by rewrite map_app, flattenBlock_ids, IH.
Qed.

Lemma insertBlocks_lookup_other (bs : list Block) (m : gmap ClientId Block)
    (i : ClientId) :
  i ∉ blocksIds bs -> insertBlocks bs m !! i = m !! i.
Proof.
  rewrite <- flattenBlocks_ids. unfold insertBlocks.
  induction (flattenBlocks bs) as [|b l IH]; [done|]. simpl.
  intros Hi. apply not_elem_of_cons in Hi as [Hne Hi].
  rewrite lookup_insert_ne by done. by apply IH.
Qed.

Lemma insertBlocks_lookup_root (b : Block) (bs : list Block)
    (m : gmap ClientId Block) :
  insertBlocks (b :: bs) m !! clientId b = Some b.
Proof.
  unfold insertBlocks, flattenBlocks. destruct b as [c n a inner]; simpl.
  by rewrite lookup_insert_eq.
Qed.

Lemma foldr_delete_lookup_other (l : list ClientId) (m : gmap ClientId Block)
    (i : ClientId) :
  i ∉ l -> foldr delete m l !! i = m !! i.
Proof.
  induction l as [|c l IH]; [done|]. simpl. intros Hi.
  apply not_elem_of_cons in Hi as [Hne Hi].
  rewrite lookup_delete_ne by done. by apply IH.
Qed.

Lemma removeBlocks_single_other (c i : ClientId) (b : Block)
    (m : gmap ClientId Block) :
  m !! c = Some b -> i ∉ blockIds b -> removeBlocks [c] m !! i = m !! i.
Proof.
  intros Hc Hi. unfold removeBlocks; simpl. rewrite Hc.
  by apply foldr_delete_lookup_other.
Qed.

(** ** Who performs the replace step *)

(** C3 (as stated, refuted).  On the fixtures of the effect tests both
    handlers dispatch [replaceBlocks] themselves, and once the store has
    taken the actions of [convertBlockToStatic] the reference block is no
    longer in it. *)
Lemma conversions_splice_themselves :
  existsb isReplaceBlocks
    (dispatched (convertBlockToStatic (hostOf testStore) 1 testSupply)) = true
  /\ existsb isReplaceBlocks
       (dispatched (convertBlockToReusable (hostOf testStore) [2] testSupply))
     = true
  /\ getBlock (hostOf testStore) 1 = Some associatedBlock
  /\ getBlock
       (hostOf (foldl reduce testStore
                  (dispatched
                     (convertBlockToStatic (hostOf testStore) 1 testSupply))))
       1 = None.
Proof. repeat split; vm_compute; reflexivity. Qed.

Lemma foldr_delete_lookup_in (l : list ClientId) (m : gmap ClientId Block)
    (i : ClientId) :
  i ∈ l -> foldr delete m l !! i = None.
Proof.
  induction l as [|c l IH]; [by intros ?%elem_of_nil|]. simpl.
  intros Hi. destruct (decide (c = i)) as [->|Hne].
  - apply lookup_delete_eq.
  - rewrite lookup_delete_ne by done. apply IH.
    by apply elem_of_cons in Hi as [->|Hi].
Qed.

Lemma clonesOf_shapes (orig : list Block) (s : Supply)
    (r : list Block * Supply) :
  clonesOf orig s r ->
  Forall2 (fun b' b => shape b' = shape b) r.1 orig
  /\ Forall (fun i => nextUuid s <= i) (blocksIds r.1).
Proof.
  intros (Hsh & Hids & _). split.
  - revert Hsh. generalize (r.1). clear Hids.
    induction orig as [|b bs IH]; intros [|b' bs'] Heq; simplify_eq/=;
      constructor; auto.
  - rewrite Hids. apply Forall_forall. intros i Hi%elem_of_seq. lia.
Qed.

(** C3 (amended).  Both handlers perform the replace step themselves.
    [convertBlockToStatic] dispatches one action and no other:
    [replaceBlocks] aimed at the reference block, with the clones (shaped
    like the record's block, or like its children when it is a
    ["core/template"], and carrying newly drawn identifiers) as the new
    blocks.  In the store that takes it the reference block no longer
    resolves, while the record and the record's block resolve as before.
    [convertBlockToReusable] dispatches, for a single block, the record,
    the save, [replaceBlocks] aimed at that block with a new ["core/block"]
    whose [ref] is the record's identifier, and last [receiveBlocks] with
    the very block it read; a selection that is not a single block is first
    wrapped into a received ["core/template"] block, which takes the place
    of the block read.  In the store that takes the actions of a
    single-block conversion the original block resolves as before and the
    reference block resolves too. *)
Theorem conversions_dispatch_replace (st : Store) (h : Host) (c c' : ClientId)
    (cs : list ClientId) (s : Supply)
    (oldBlock referencedBlock b : Block) (rb : ReusableBlock) :
  getBlock (hostOf st) c = Some oldBlock ->
  clientId oldBlock = c ->
  getReusableBlock (hostOf st) (attribute oldBlock "ref") = Some rb ->
  getBlock (hostOf st) (rb_clientId rb) = Some referencedBlock ->
  rb_clientId rb ∉ blockIds oldBlock ->
  rb_clientId rb < nextUuid s ->
  c < nextUuid s ->
  getBlock (hostOf st) c' = Some b ->
  clientId b = c' ->
  Forall (fun i => i < nextUuid s) (blockIds b) ->
  length cs <> 1 ->
  let r1 := convertBlockToStatic (hostOf st) c s in
  let r2 := convertBlockToReusable (hostOf st) [c'] s in
  let r3 := convertBlockToReusable h cs s in
  let st1 := foldl reduce st (dispatched r1) in
  let st2 := foldl reduce st (dispatched r2) in
  let id := temporaryId (S (idCounter s)) in
  let template :=
    mkBlock (nextUuid s) "core/template" ∅ (getBlocksByClientId h cs) in
  (exists newBlocks,
      dispatched r1 = [ReplaceBlocks [c] newBlocks]
      /\ Forall2 (fun b' b => shape b' = shape b) newBlocks
           (if decide (name referencedBlock = "core/template")
            then innerBlocks referencedBlock else [referencedBlock])
      /\ Forall (fun i => nextUuid s <= i) (blocksIds newBlocks))
  /\ getBlock (hostOf st1) c = None
  /\ getReusableBlock (hostOf st1) (attribute oldBlock "ref") = Some rb
  /\ getBlock (hostOf st1) (rb_clientId rb) = Some referencedBlock
  /\ dispatched r2
     = [ReceiveReusableBlocks
          [(mkReusableBlock id c' "Untitled Reusable Block", b)];
        SaveReusableBlock id;
        ReplaceBlocks [c']
          [mkBlock (nextUuid s) "core/block" {[ "ref" := id ]} []];
        ReceiveBlocks [b]]
  /\ getBlock (hostOf st2) c' = Some b
  /\ getBlock (hostOf st2) (nextUuid s)
     = Some (mkBlock (nextUuid s) "core/block" {[ "ref" := id ]} [])
  /\ dispatched r3
     = [ReceiveBlocks [template];
        ReceiveReusableBlocks
          [(mkReusableBlock id (nextUuid s) "Untitled Reusable Block",
            template)];
        SaveReusableBlock id;
        ReplaceBlocks cs
          [mkBlock (S (nextUuid s)) "core/block" {[ "ref" := id ]} []];
        ReceiveBlocks [template]].
Proof.
  intros Hold Hc Hrb Href Hnotin Hlt Hclt Hb Hbc Hfresh Hlen
    r1 r2 r3 st1 st2 id template.
  subst r1 r2 r3 st1 st2.
  rewrite (convertBlockToStatic_resolved (hostOf st) c s _ _ _ Hold Hrb Href).
  rewrite convertBlockToReusable_single, Hb.
  rewrite (convertBlockToReusable_multi h cs s Hlen).
  cbv zeta. cbn [dispatched]. fold id. rewrite Hc, Hbc.
  pose proof (staticBlocks_clonesOf referencedBlock s) as Hclones.
  destruct (clonesOf_shapes _ _ _ Hclones) as [Hshapes Hids].
  set (newBlocks := (staticBlocks referencedBlock s).1) in *.
  assert (Hstored : blocksByClientId st !! c = Some oldBlock) by exact Hold.
  split; [by exists newBlocks|].
  split.
  { cbn [foldl reduce hostOf getBlock blocksByClientId].
    rewrite insertBlocks_lookup_other.
    - unfold removeBlocks. simpl. rewrite Hstored.
      apply foldr_delete_lookup_in. rewrite <- Hc.
      destruct oldBlock; simpl. apply list_elem_of_here.
    - intros Hin. rewrite Forall_forall in Hids.
      specialize (Hids _ Hin). lia. }
  split; [done|]. split.
  { cbn [foldl reduce hostOf getBlock blocksByClientId].
    rewrite insertBlocks_lookup_other.
    - unfold removeBlocks. simpl. rewrite Hstored.
      by rewrite foldr_delete_lookup_other.
    - intros Hin. rewrite Forall_forall in Hids.
      specialize (Hids _ Hin). lia. }
  split; [done|]. split.
  { cbn [foldl reduce hostOf getBlock blocksByClientId].
    rewrite <- Hbc. apply insertBlocks_lookup_root. }
  split; [|done].
  cbn [foldl reduce hostOf getBlock blocksByClientId].
  rewrite insertBlocks_lookup_other.
  - apply (insertBlocks_lookup_root
             (mkBlock (nextUuid s) "core/block" {[ "ref" := id ]} [])).
  - unfold blocksIds. simpl. rewrite app_nil_r. intros Hin.
    rewrite Forall_forall in Hfresh. specialize (Hfresh _ Hin). lia.
Qed.

(** ** Conversion to a reusable block *)

Lemma temporaryId_inj (k k' : nat) : temporaryId k = temporaryId k' -> k = k'.
Proof.
  unfold temporaryId. intros H. simplify_eq/=.
  by apply (inj pretty).
Qed.

Lemma counterAhead_withRecord (h : Host) (s : Supply) (c : ClientId)
    (t : string) :
  counterAhead h s ->
  counterAhead
    (withRecord (mkReusableBlock (temporaryId (S (idCounter s))) c t) h)
    (mkSupply (S (nextUuid s)) (S (idCounter s))).
Proof.
  intros Hahead k Hk. simpl in *.
  rewrite decide_False.
  - apply Hahead. lia.
  - intros Heq%temporaryId_inj. lia.
Qed.

(** A host that stores records under persisted identifiers only has every
    supply ahead of it. *)
Lemma counterAhead_persisted (h : Host) (s : Supply) :
  (forall ref rb, getReusableBlock h ref = Some rb -> Js.isFinite ref = true) ->
  counterAhead h s.
Proof.
  intros Hpersisted k _.
  destruct (getReusableBlock h (temporaryId k)) as [rb|] eqn:Hrb; [|done].
  by apply Hpersisted in Hrb.
Qed.

(** The block store of this development and [receiveRecords] resolve
    reusable blocks alike. *)
Lemma hostOf_receiveRecords (log : list Action) :
  forall (st : Store) (ref : Js.Val),
    getReusableBlock (hostOf (foldl reduce st log)) ref
    = getReusableBlock (receiveRecords log (hostOf st)) ref.
Proof.
  unfold receiveRecords.
  assert (Hgen : forall (h : Host) (st : Store),
    (forall ref, getReusableBlock (hostOf st) ref = getReusableBlock h ref) ->
    forall ref,
      getReusableBlock (hostOf (foldl reduce st log)) ref
      = getReusableBlock
          (foldl (fun h a => foldr withRecord h (recordsOf a)) h log) ref).
  { induction log as [|a log IH]; intros h st Hagree ref; [by apply Hagree|].
    simpl. apply IH. clear ref. intros ref.
    destruct a as [cs bs|bs|results|id]; simpl; try apply Hagree.
    induction results as [|[rb b] results IHr]; simpl; [apply Hagree|].
    case_bool_decide; case_decide; try done. }
  intros st ref. by apply Hgen.
Qed.

Lemma convertBlockToReusable_resolved (h : Host) (c : ClientId) (b : Block)
    (s : Supply) :
  getBlock h c = Some b ->
  clientId b < nextUuid s ->
  counterAhead h s ->
  reusableConversionOf h c b s (convertBlockToReusable h [c] s).
Proof.
  intros Hb Hlt Hahead. unfold reusableConversionOf.
  rewrite convertBlockToReusable_single, Hb. simpl.
  eexists. split; [done|]. split; [reflexivity|]. simpl.
  repeat split; try done.
  - lia.
  - apply Hahead. lia.
  - intros k Hk Heq. apply Hk. by apply temporaryId_inj.
  - unfold receiveRecords. simpl. by rewrite decide_True.
  - apply (counterAhead_withRecord h s (clientId b)
             "Untitled Reusable Block" Hahead).
Qed.

(** C6.  A selection that is not a single block is first wrapped into a new
    ["core/template"] block whose inner blocks are the blocks the host
    answers for the selection, as they are; that block is registered and the
    conversion goes on as for a single block.  For a single block the
    handler records it under a temporary identifier, the prefix followed by
    the next counter value, that no stored record uses, and replaces the
    selection by a new ["core/block"] block whose [ref] is that identifier
    and whose [clientId] is newly drawn and differs from that of the block
    in the record.  Either run advances the counter by one and draws its
    client identifiers from the supply, and once the fragment store has
    taken the new record the supplies are ahead of the host again: no later
    run is handed the same identifier. *)
Theorem convertBlockToReusable_reference (h : Host) (cs : list ClientId)
    (c : ClientId) (b : Block) (s : Supply) :
  length cs <> 1 ->
  getBlock h c = Some b ->
  clientId b < nextUuid s ->
  counterAhead h s ->
  let template :=
    mkBlock (nextUuid s) "core/template" ∅ (getBlocksByClientId h cs) in
  let afterTemplate := mkSupply (S (nextUuid s)) (idCounter s) in
  let registered :=
    mkHost (fun _ => Some template) (getBlocksByClientId h)
      (getReusableBlock h) in
  let multi := convertBlockToReusable h cs s in
  let single :=
    convertBlockToReusable registered [clientId template] afterTemplate in
  reusableConversionOf h c b s (convertBlockToReusable h [c] s)
  /\ innerBlocks template = getBlocksByClientId h cs
  /\ value multi = value single
  /\ supplyAfter multi = supplyAfter single
  /\ (exists tail,
        dispatched single = ReceiveReusableBlocks
                              [(mkReusableBlock
                                  (temporaryId (S (idCounter s)))
                                  (clientId template)
                                  "Untitled Reusable Block", template)]
                            :: SaveReusableBlock (temporaryId (S (idCounter s)))
                            :: ReplaceBlocks [clientId template] tail
                            :: [ReceiveBlocks [template]]
        /\ dispatched multi
           = ReceiveBlocks [template]
             :: ReceiveReusableBlocks
                  [(mkReusableBlock
                      (temporaryId (S (idCounter s)))
                      (clientId template)
                      "Untitled Reusable Block", template)]
             :: SaveReusableBlock (temporaryId (S (idCounter s)))
             :: ReplaceBlocks cs tail
             :: [ReceiveBlocks [template]])
  /\ reusableConversionOf registered (clientId template) template
       afterTemplate single
  /\ supplyAfter multi = mkSupply (S (S (nextUuid s))) (S (idCounter s))
  /\ getReusableBlock (receiveRecords (dispatched multi) h)
       (temporaryId (S (idCounter s)))
     = Some (mkReusableBlock (temporaryId (S (idCounter s)))
               (clientId template) "Untitled Reusable Block")
  /\ counterAhead (receiveRecords (dispatched multi) h) (supplyAfter multi).
Proof.
  intros Hlen Hb Hlt Hahead template afterTemplate registered multi single.
  split; [by apply convertBlockToReusable_resolved|].
  split; [done|].
  assert (Hsingle : reusableConversionOf registered (clientId template)
                      template afterTemplate single).
  { apply convertBlockToReusable_resolved; simpl; [done|lia|done]. }
  subst multi single.
  rewrite (convertBlockToReusable_multi h cs s Hlen).
  rewrite convertBlockToReusable_single in *.
  cbn [getBlock registered clientId template] in *.
  cbv zeta in *. cbn [value supplyAfter dispatched] in *.
  split; [done|]. split; [done|].
  split; [eexists; split; reflexivity|].
  split; [exact Hsingle|]. split; [done|]. split.
  - unfold receiveRecords. simpl. by rewrite decide_True.
  - apply (counterAhead_withRecord h s (nextUuid s)
             "Untitled Reusable Block" Hahead).
Qed.

(** ** Round trip *)

Lemma roundTrip_single (st : Store) (c : ClientId) (b : Block) (s : Supply) :
  blocksByClientId st !! c = Some b ->
  Forall (fun i => i < nextUuid s) (blockIds b) ->
  roundTrip st [c] s
  = Some (staticBlocks b (mkSupply (S (nextUuid s)) (S (idCounter s)))).1.
Proof.
  intros Hb Hfresh. unfold roundTrip.
  rewrite convertBlockToReusable_single.
  change (getBlock (hostOf st) c) with (blocksByClientId st !! c).
  rewrite Hb. unfold replacement at 1.
  cbn -[foldl reduce convertBlockToStatic hostOf replacement pretty
        String.append].
  set (id := Js.VString ("reusable" +:+ pretty (S (idCounter s)))).
  set (ref := mkBlock (nextUuid s) "core/block" {[ "ref" := id ]} []).
  set (rb := mkReusableBlock id (clientId b) "Untitled Reusable Block").
  set (st' := foldl reduce st _).
  assert (Hroot : nextUuid s ∉ blockIds b).
  { intros Hin. rewrite Forall_forall in Hfresh.
    specialize (Hfresh _ Hin). lia. }
  rewrite (convertBlockToStatic_resolved (hostOf st') (nextUuid s) _ ref b rb).
  - reflexivity.
  - subst st'. simpl.
    rewrite insertBlocks_lookup_other
      by (unfold blocksIds; simpl; by rewrite app_nil_r).
    apply insertBlocks_lookup_root.
  - subst st'. simpl. unfold attribute. simpl.
    rewrite lookup_singleton_eq. simpl.
    by rewrite bool_decide_eq_true_2.
  - subst st'. simpl. apply insertBlocks_lookup_root.
Qed.

(** C4 (as stated, refuted).  The block [templateBlock] has the group type
    name; converting it to a reusable block and back yields the clone of its
    child, which is not a tree shaped like the block itself. *)
Lemma round_trip_unwraps_template :
  blocksByClientId templateStore !! 1 = Some templateBlock
  /\ (exists b', roundTrip templateStore [1] (mkSupply 5 0) = Some [b']
                 /\ shape b' = mkShape "core/test-block" ∅ []
                 /\ shape b' <> shape templateBlock).
Proof.
  split; [reflexivity|].
  eexists. split; [vm_compute; reflexivity|]. split; [reflexivity|].
  discriminate.
Qed.

(** C4 (amended).  For a block whose type name is not ["core/template"],
    converting it to a reusable block, letting the stores take the
    dispatched actions and converting the reference block back yields one
    block, shaped like the original. *)
Theorem round_trip_shape (st : Store) (c : ClientId) (b : Block)
    (s : Supply) :
  blocksByClientId st !! c = Some b ->
  Forall (fun i => i < nextUuid s) (blockIds b) ->
  name b <> "core/template" ->
  exists b', roundTrip st [c] s = Some [b'] /\ shape b' = shape b.
Proof.
  intros Hb Hfresh Hname. rewrite (roundTrip_single st c b s Hb Hfresh).
  set (s1 := mkSupply _ _).
  pose proof (staticBlocks_clonesOf b s1) as (Hsh & _ & _).
  rewrite decide_False in Hsh by done.
  destruct (staticBlocks b s1) as [[|b' [|b'' bs]] s2];
    simpl in *; simplify_eq.
  by exists b'.
Qed.

(** ** Template synchronisation *)

Lemma gbind_run {A B} (m : Gen A) (k : A -> Gen B) (s : Supply) :
  gbind m k s = k (m s).1 (m s).2.
Proof. unfold gbind. by destruct (m s). Qed.

Lemma blockFromTemplate_spec (t : TemplateEntry) (s : Supply) :
  shape (blockFromTemplate t s).1 = templateShape t
  /\ Forall (fun i => nextUuid s <= i < nextUuid (blockFromTemplate t s).2)
       (blockIds (blockFromTemplate t s).1)
  /\ nextUuid (blockFromTemplate t s).2 = nextUuid s + templateSize t.
Proof.
  revert s. induction t as [n a inner IH] using TemplateEntry_nested_ind.
  intros s.
  assert (Hinner : forall s,
    map shape (gmapM blockFromTemplate inner s).1 = map templateShape inner
    /\ Forall (fun i => nextUuid s <= i
                        < nextUuid (gmapM blockFromTemplate inner s).2)
         (blocksIds (gmapM blockFromTemplate inner s).1)
    /\ nextUuid (gmapM blockFromTemplate inner s).2
       = nextUuid s + list_sum (map templateSize inner)).
  { clear n a s. induction IH as [|t l Ht _ IHl]; intros s.
    - simpl. split; [done|]. split; [constructor|lia].
    - cbn [gmapM]. rewrite !gbind_run. cbn [gret fst snd].
      destruct (Ht s) as (Hsh & Hids & Hn).
      destruct (IHl (blockFromTemplate t s).2) as (Hsh' & Hids' & Hn').
      split; [simpl; by rewrite Hsh, Hsh'|]. split; [|simpl; lia].
      unfold blocksIds in *; simpl. apply Forall_app. split.
      + eapply Forall_impl; [exact Hids|]. simpl. intros; lia.
      + eapply Forall_impl; [exact Hids'|]. simpl. intros; lia. }
  destruct (Hinner s) as (Hsh & Hids & Hn).
  cbn [blockFromTemplate t_innerBlocks t_name t_attributes].
  unfold createBlock. rewrite !gbind_run.
  cbn [gret uuid fst snd shape name attributes innerBlocks blockIds
       templateShape t_innerBlocks t_name t_attributes nextUuid clientId
       templateSize].
  split; [by rewrite Hsh|]. split; [|lia].
  constructor; [lia|].
  eapply Forall_impl; [exact Hids|]. simpl. intros; lia.
Qed.

Lemma synchronizeAt_spec (blocks : list Block) (i : nat) (t : TemplateEntry)
    (s : Supply) :
  nextUuid s <= nextUuid (synchronizeAt blocks i t s).2
  /\ match blocks !! i with
     | Some b =>
         if decide (name b = t_name t)
         then (synchronizeAt blocks i t s).1 = b
         else (synchronizeAt blocks i t s).1 <> b
              /\ createdFrom t s (synchronizeAt blocks i t s).1
     | None => createdFrom t s (synchronizeAt blocks i t s).1
     end.
Proof.
  unfold synchronizeAt, createdFrom.
  pose proof (blockFromTemplate_spec t s) as (Hsh & Hids & Hn).
  assert (Hfresh : Forall (fun i => nextUuid s <= i)
                     (blockIds (blockFromTemplate t s).1)).
  { eapply Forall_impl; [exact Hids|]. simpl. intros; lia. }
  destruct (blocks !! i) as [b|]; [|split; [lia|done]].
  destruct (decide (name b = t_name t)) as [Heq|Hne]; [by split|].
  split; [lia|]. split; [|done].
  intros Hb. apply Hne. rewrite <- Hb.
  apply (f_equal shapeName) in Hsh. destruct t, (blockFromTemplate _ s).1.
  exact Hsh.
Qed.

Lemma createdFrom_mono (t : TemplateEntry) (s s' : Supply) (b : Block) :
  nextUuid s <= nextUuid s' -> createdFrom t s' b -> createdFrom t s b.
Proof.
  intros Hle [Hsh Hids]. split; [done|].
  eapply Forall_impl; [exact Hids|]. simpl. intros; lia.
Qed.

Lemma synchronizeFrom_spec (blocks : list Block)
    (template : list TemplateEntry) :
  forall (i : nat) (s : Supply),
    length (synchronizeFrom blocks i template s).1 = length template
    /\ nextUuid s <= nextUuid (synchronizeFrom blocks i template s).2
    /\ forall j t, template !! j = Some t ->
         exists b', (synchronizeFrom blocks i template s).1 !! j = Some b'
           /\ match blocks !! (i + j) with
              | Some b =>
                  if decide (name b = t_name t) then b' = b
                  else b' <> b /\ createdFrom t s b'
              | None => createdFrom t s b'
              end.
Proof.
  induction template as [|t template IH]; intros i s; cbn [synchronizeFrom].
  - split; [done|]. split; [done|]. intros j t Hj. done.
  - rewrite !gbind_run. cbn [gret fst snd].
    pose proof (synchronizeAt_spec blocks i t s) as [Hle Hat].
    destruct (IH (S i) (synchronizeAt blocks i t s).2) as (Hlen & Hle' & Hpos).
    split; [simpl; by rewrite Hlen|]. split; [lia|].
    intros [|j] t' Hj; simpl in Hj |- *.
    + simplify_eq. eexists. split; [done|]. by rewrite Nat.add_0_r.
    + destruct (Hpos j t' Hj) as (b' & Hb' & Hcase).
      exists b'. split; [done|].
      replace (i + S j) with (S i + j) by lia.
      destruct (blocks !! (S i + j)) as [b0|].
      * destruct (decide (name b0 = t_name t')); [done|].
        destruct Hcase as [Hne Hcr]. split; [done|].
        by apply (createdFrom_mono t' s (synchronizeAt blocks i t s).2).
      * by apply (createdFrom_mono t' s (synchronizeAt blocks i t s).2).
Qed.

(** C5.  The result of [synchronizeBlocksWithTemplate] is as long as the
    template, whatever the block list; the empty template gives the empty
    result; positions past the template hold nothing.  At a position of the
    template the result holds the block of the list at that position when
    there is one and it has the entry's name, and otherwise a block other
    than it, created from the entry: of the entry's shape, with identifiers
    drawn during the call. *)
Theorem synchronize_positions (blocks : list Block)
    (template : list TemplateEntry) (s : Supply) (i : nat)
    (t : TemplateEntry) :
  template !! i = Some t ->
  let result := (synchronizeBlocksWithTemplate blocks template s).1 in
  length result = length template
  /\ (synchronizeBlocksWithTemplate blocks [] s).1 = []
  /\ (forall j, length template <= j -> result !! j = None)
  /\ exists b', result !! i = Some b'
       /\ match blocks !! i with
          | Some b =>
              if decide (name b = t_name t) then b' = b
              else b' <> b /\ createdFrom t s b'
          | None => createdFrom t s b'
          end.
Proof.
  intros Hi result. subst result. unfold synchronizeBlocksWithTemplate.
  destruct (synchronizeFrom_spec blocks template 0 s) as (Hlen & _ & Hpos).
  split; [done|]. split; [done|]. split.
  - intros j Hj. apply lookup_ge_None. lia.
  - exact (Hpos i t Hi).
Qed.

(** ** The theorems at the fixtures *)

Lemma convertBlockToStatic_clones_witness :
  getBlock (hostOf testStore) 1 = Some associatedBlock
  /\ getReusableBlock (hostOf testStore) (attribute associatedBlock "ref")
     = Some testRecord
  /\ getBlock (hostOf testStore) (rb_clientId testRecord) = Some parsedBlock
  /\ Forall (fun i => i < nextUuid testSupply) (blockIds parsedBlock)
  /\ exists newBlocks,
       dispatched (convertBlockToStatic (hostOf testStore) 1 testSupply)
       = [ReplaceBlocks [1] newBlocks]
       /\ map shape newBlocks = [shape parsedBlock]
       /\ blocksIds newBlocks = [5; 6; 7].
Proof.
  assert (H1 : getBlock (hostOf testStore) 1 = Some associatedBlock)
    by reflexivity.
  assert (H2 : getReusableBlock (hostOf testStore)
                 (attribute associatedBlock "ref") = Some testRecord)
    by (vm_compute; reflexivity).
  assert (H3 : getBlock (hostOf testStore) (rb_clientId testRecord)
               = Some parsedBlock) by reflexivity.
  assert (H4 : Forall (fun i => i < nextUuid testSupply) (blockIds parsedBlock))
    by (repeat constructor).
  repeat (split; [assumption|]).
  destruct (convertBlockToStatic_clones (hostOf testStore) 1 testSupply
              associatedBlock parsedBlock testRecord H1 H2 H3 H4)
    as (newBlocks & _ & Hlog & Hshape & Hids & _).
  exists newBlocks. split; [exact Hlog|]. split.
  - rewrite decide_False in Hshape by discriminate.
    inversion Hshape as [|b' b bs' bs Hb Hrest]; subst.
    inversion Hrest; subst. simpl. by rewrite Hb.
  - rewrite Hids.
    rewrite (convertBlockToStatic_resolved _ _ _ _ _ _ H1 H2 H3).
    reflexivity.
Defined.

Lemma conversions_dispatch_replace_witness :
  getBlock (hostOf testStore) 1 = Some associatedBlock
  /\ (rb_clientId testRecord ∉ blockIds associatedBlock)
  /\ getBlock (hostOf testStore) 2 = Some parsedBlock
  /\ (exists newBlocks,
        dispatched (convertBlockToStatic (hostOf testStore) 1 testSupply)
        = [ReplaceBlocks [1] newBlocks]
        /\ Forall2 (fun b' b => shape b' = shape b) newBlocks [parsedBlock])
  /\ getBlock
       (hostOf (foldl reduce testStore
                  (dispatched
                     (convertBlockToStatic (hostOf testStore) 1 testSupply))))
       1 = None
  /\ getBlock
       (hostOf (foldl reduce testStore
                  (dispatched
                     (convertBlockToStatic (hostOf testStore) 1 testSupply))))
       2 = Some parsedBlock
  /\ getBlock
       (hostOf (foldl reduce testStore
                  (dispatched
                     (convertBlockToReusable (hostOf testStore) [2]
                        testSupply))))
       2 = Some parsedBlock.
Proof.
  assert (H1 : getBlock (hostOf testStore) 1 = Some associatedBlock)
    by reflexivity.
  assert (H2 : getReusableBlock (hostOf testStore)
                 (attribute associatedBlock "ref") = Some testRecord)
    by (vm_compute; reflexivity).
  assert (H3 : getBlock (hostOf testStore) (rb_clientId testRecord)
               = Some parsedBlock) by reflexivity.
  assert (H4 : rb_clientId testRecord ∉ blockIds associatedBlock).
  { simpl. apply not_elem_of_cons. split; [lia|apply not_elem_of_nil]. }
  assert (H5 : rb_clientId testRecord < nextUuid testSupply) by (simpl; lia).
  assert (H6 : 1 < nextUuid testSupply) by (simpl; lia).
  assert (H7 : Forall (fun i => i < nextUuid testSupply) (blockIds parsedBlock))
    by (repeat constructor).
  assert (H8 : length [3; 4] <> 1) by (simpl; lia).
  split; [exact H1|]. split; [exact H4|]. split; [exact H3|].
  destruct (conversions_dispatch_replace testStore (hostOf testStore) 1 2
              [3; 4] testSupply associatedBlock parsedBlock parsedBlock
              testRecord H1 eq_refl H2 H3 H4 H5 H6 H3 eq_refl H7 H8)
    as ((newBlocks & Hlog & Hshapes & _) & Hgone & _ & Hkept & _ & Hback & _).
  split; [exists newBlocks; split; [exact Hlog|exact Hshapes]|].
  split; [exact Hgone|]. split; [exact Hkept|exact Hback].
Defined.

Lemma round_trip_shape_witness :
  blocksByClientId testStore !! 2 = Some parsedBlock
  /\ name parsedBlock <> "core/template"
  /\ exists b', roundTrip testStore [2] testSupply = Some [b']
                /\ shape b' = shape parsedBlock.
Proof.
  assert (H1 : blocksByClientId testStore !! 2 = Some parsedBlock)
    by reflexivity.
  assert (H2 : Forall (fun i => i < nextUuid testSupply) (blockIds parsedBlock))
    by (repeat constructor).
  assert (H3 : name parsedBlock <> "core/template") by discriminate.
  split; [exact H1|]. split; [exact H3|].
  exact (round_trip_shape testStore 2 parsedBlock testSupply H1 H2 H3).
Defined.

Lemma synchronize_positions_witness :
  testTemplate !! 1 = Some headingEntry
  /\ length (synchronizeBlocksWithTemplate testBlocks testTemplate
               testSupply).1 = 2
  /\ exists b',
       (synchronizeBlocksWithTemplate testBlocks testTemplate testSupply).1
         !! 1 = Some b'
       /\ shape b' = templateShape headingEntry
       /\ Forall (fun i => 5 <= i) (blockIds b').
Proof.
  assert (H1 : testTemplate !! 1 = Some headingEntry) by reflexivity.
  split; [exact H1|].
  destruct (synchronize_positions testBlocks testTemplate testSupply 1
              headingEntry H1) as (Hlen & _ & _ & b' & Hb' & Hcase).
  split; [exact Hlen|]. exists b'. split; [exact Hb'|].
  simpl in Hcase. destruct Hcase as [_ Hcreated]. exact Hcreated.
Defined.

Lemma convertBlockToReusable_reference_witness :
  length [3; 4] <> 1
  /\ getBlock (hostOf testStore) 2 = Some parsedBlock
  /\ counterAhead (hostOf testStore) testSupply
  /\ reusableConversionOf (hostOf testStore) 2 parsedBlock testSupply
       (convertBlockToReusable (hostOf testStore) [2] testSupply)
  /\ value (convertBlockToReusable (hostOf testStore) [3; 4] testSupply)
     = inr tt
  /\ supplyAfter (convertBlockToReusable (hostOf testStore) [3; 4] testSupply)
     = mkSupply 7 1
  /\ counterAhead
       (receiveRecords
          (dispatched
             (convertBlockToReusable (hostOf testStore) [3; 4] testSupply))
          (hostOf testStore))
       (mkSupply 7 1).
Proof.
  assert (H1 : length [3; 4] <> 1) by (simpl; lia).
  assert (H2 : getBlock (hostOf testStore) 2 = Some parsedBlock)
    by reflexivity.
  assert (H3 : clientId parsedBlock < nextUuid testSupply) by (simpl; lia).
  assert (H4 : counterAhead (hostOf testStore) testSupply).
  { intros k _. reflexivity. }
  split; [exact H1|]. split; [exact H2|]. split; [exact H4|].
  destruct (convertBlockToReusable_reference (hostOf testStore) [3; 4] 2
              parsedBlock testSupply H1 H2 H3 H4)
    as (Hsingle & _ & Hvalue & _ & _ & Hmulti & Hsupply & _ & Hahead).
  split; [exact Hsingle|]. split.
  - rewrite Hvalue. destruct Hmulti as (ref & Hok & _). exact Hok.
  - split; [exact Hsupply|]. rewrite Hsupply in Hahead. exact Hahead.
Defined.

Lemma cancelEditing_resets_witness :
  ReusableBlockEdit.isEditing (ReusableBlockEdit.state editingComponent) = true
  /\ ReusableBlockEdit.privateTree editedMount
     <> ReusableBlockEdit.content testPost
  /\ ReusableBlockEdit.state
       (ReusableBlockEdit.handle ReusableBlockEdit.OnCancel editingComponent)
     = ReusableBlockEdit.mkState 4 false
  /\ ReusableBlockEdit.reconcile
       (ReusableBlockEdit.render testProps
          (ReusableBlockEdit.state
             (ReusableBlockEdit.handle ReusableBlockEdit.OnCancel
                editingComponent)))
       (Some editedMount)
     = Some (ReusableBlockEdit.mkMounted 4 [parsedBlock])
  /\ ReusableBlockEdit.cancelIncrementKey
       (ReusableBlockEdit.state
          (foldl (fun c e => ReusableBlockEdit.handle e c) editingComponent
             [ReusableBlockEdit.OnSave; ReusableBlockEdit.OnEdit;
              ReusableBlockEdit.OnCancel; ReusableBlockEdit.OnEdit;
              ReusableBlockEdit.OnCancel]))
     = 5%N.
Proof.
  split; [reflexivity|]. split; [discriminate|].
  destruct (cancelEditing_resets editingComponent testProps testPost
              editedMount
              [ReusableBlockEdit.OnSave; ReusableBlockEdit.OnEdit;
               ReusableBlockEdit.OnCancel; ReusableBlockEdit.OnEdit;
               ReusableBlockEdit.OnCancel]
              eq_refl eq_refl eq_refl eq_refl)
    as (_ & _ & Hmount & _ & _ & _ & Hkey).
  split; [reflexivity|]. split; [exact Hmount|exact Hkey].
Defined.


(** ** Further properties of the selection protocol *)

(** X1.  From rest, the reaction to any selection event is over after at
    most three re-renders: with any fuel from three on the observers end in
    the same state, and that state is at rest.  There is no update loop
    between the two editors. *)
Theorem reaction_within_three_rerenders (sys : System) (e : SelectionEvent)
    (k : nat) :
  settled sys ->
  settle (3 + k)
    (mkSystem (applyEvent e (contexts sys)) (renderedParent sys)
       (renderedChild sys))
  = fire sys e
  /\ settled (fire sys e).
Proof.
  intros Hs. split; [|by apply fire_settled].
  apply settled_rest in Hs. rewrite Hs, fire_rest.
  apply (settle_event k (contexts sys) e).
Qed.

Lemma reaction_within_three_rerenders_witness :
  settled initialSystem
  /\ settle 3
       (mkSystem (applyEvent (ChildSelect 1) (contexts initialSystem))
          (renderedParent initialSystem) (renderedChild initialSystem))
     = fire initialSystem (ChildSelect 1)
  /\ settled (fire initialSystem (ChildSelect 1)).
Proof.
  assert (H : settled initialSystem) by reflexivity.
  split; [exact H|].
  exact (reaction_within_three_rerenders initialSystem (ChildSelect 1) 0 H).
Defined.

Lemma guardSafe_take (es : list SelectionEvent) :
  forall (sys : System) (n : nat),
    guardSafe sys es = true -> guardSafe sys (take n es) = true.
Proof.
  induction es as [|e es IH]; intros sys [|n] H; try done.
  simpl in *. apply andb_true_iff in H as [He Hes].
  rewrite He. simpl. by apply IH.
Qed.

Lemma quiescent_foldl (es : list SelectionEvent) :
  forall sys : System,
    quiescent sys -> guardSafe sys es = true -> quiescent (foldl fire sys es).
Proof.
  induction es as [|e es IH]; intros sys Hq H; [done|].
  simpl in *. apply andb_true_iff in H as [He Hes].
  apply IH; [|done]. apply quiescent_fire; [done|].
  by destruct (leavesGuard sys e).
Qed.

(** X2.  Along a trace of selection events none of which selects an inner
    block while nothing is selected anywhere, the system is, after every
    reaction, at rest with the guard absent and at most one of the two
    selections non-empty. *)
Theorem exclusive_along_guard_safe_trace (sys : System)
    (es : list SelectionEvent) (n : nat) :
  quiescent sys ->
  guardSafe sys es = true ->
  quiescent (foldl fire sys (take n es))
  /\ exclusive (foldl fire sys (take n es)).
Proof.
  intros Hq Hsafe.
  assert (H : quiescent (foldl fire sys (take n es))).
  { apply quiescent_foldl; [done|]. by apply guardSafe_take. }
  split; [done|]. by destruct H as (_ & _ & _ & Hex).
Qed.

Lemma exclusive_along_guard_safe_trace_witness :
  quiescent initialSystem
  /\ guardSafe initialSystem
       [ParentSelect 2; ChildSelect 1; ParentMultiSelect 3 4; ChildSelect 5;
        ChildSelect 6; ParentClear] = true
  /\ exclusive
       (foldl fire initialSystem
          (take 4 [ParentSelect 2; ChildSelect 1; ParentMultiSelect 3 4;
                   ChildSelect 5; ChildSelect 6; ParentClear])).
Proof.
  assert (H : guardSafe initialSystem
                [ParentSelect 2; ChildSelect 1; ParentMultiSelect 3 4;
                 ChildSelect 5; ChildSelect 6; ParentClear] = true)
    by reflexivity.
  split; [exact quiescent_initial|]. split; [exact H|].
  exact (proj2 (exclusive_along_guard_safe_trace initialSystem _ 4
                  quiescent_initial H)).
Defined.

(** X3.  In a state at rest with the guard absent and at most one selection
    non-empty, selecting an inner block always ends with that block selected
    in the embedded editor and nothing selected around it; the guard is left
    set exactly when nothing was selected anywhere before. *)
Theorem child_select_reaction (sys : System) (c : ClientId) :
  quiescent sys ->
  contexts (fire sys (ChildSelect c))
  = mkContexts (mkSelection None None) (selectBlock c)
      (leavesGuard sys (ChildSelect c)).
Proof.
  intros (Hs & Hg & Hc & Hex).
  apply settled_rest in Hs. rewrite Hs in *. rewrite fire_rest.
  destruct (contexts sys) as [[ps pe] [cs ce] g]. clear Hs.
  unfold_reaction. subst g.
  destruct ps, pe, cs, ce; decide_visible; try done;
    exfalso; apply Hex; done.
Qed.

Lemma child_select_reaction_witness :
  quiescent (fire initialSystem (ParentSelect 2))
  /\ contexts (fire (fire initialSystem (ParentSelect 2)) (ChildSelect 1))
     = mkContexts (mkSelection None None) (selectBlock 1) false.
Proof.
  assert (H : quiescent (fire initialSystem (ParentSelect 2))).
  { apply quiescent_fire; [exact quiescent_initial|reflexivity]. }
  split; [exact H|].
  exact (child_select_reaction (fire initialSystem (ParentSelect 2)) 1 H).
Defined.

(** X4.  In such a state an event fired at the surrounding editor ends with
    the guard absent and with the embedded selection emptied when the event
    changed the surrounding selection, kept when it did not (the same block
    selected again, an empty selection cleared). *)
Theorem parent_event_reaction (sys : System) (e : SelectionEvent)
    (target : Selection) :
  quiescent sys ->
  parentTarget (contexts sys) e = Some target ->
  contexts (fire sys e)
  = mkContexts target
      (if decide (target = parentSelection (contexts sys))
       then childSelection (contexts sys)
       else mkSelection None None)
      false.
Proof.
  intros (Hs & Hg & Hc & Hex) Ht.
  apply settled_rest in Hs. rewrite Hs in *. rewrite fire_rest.
  destruct (contexts sys) as [p ch g]. clear Hs. simpl in *. subst g.
  destruct e; simplify_eq/=; unfold reaction; simpl;
    case_decide; try done.
Qed.

Lemma parent_event_reaction_witness :
  quiescent (fire (fire initialSystem (ParentSelect 2)) (ChildSelect 1))
  /\ contexts
       (fire (fire (fire initialSystem (ParentSelect 2)) (ChildSelect 1))
          (ParentSelect 3))
     = mkContexts (selectBlock 3) (mkSelection None None) false.
Proof.
  assert (H : quiescent
                (fire (fire initialSystem (ParentSelect 2)) (ChildSelect 1))).
  { apply (quiescent_foldl [ParentSelect 2; ChildSelect 1]);
      [exact quiescent_initial|reflexivity]. }
  split; [exact H|].
  exact (parent_event_reaction _ (ParentSelect 3) (selectBlock 3) H eq_refl).
Defined.

(** X15.  Once the guard has been left behind, the next event that changes
    the selection of the surrounding editor consumes it and leaves the
    embedded selection as it is, so that the two selections can both be
    non-empty afterwards. *)
Theorem stale_guard_shields_inner_selection (sys : System)
    (e : SelectionEvent) (target : Selection) :
  settled sys ->
  isSelectingInnerBlock (contexts sys) = true ->
  parentTarget (contexts sys) e = Some target ->
  target <> parentSelection (contexts sys) ->
  contexts (fire sys e)
  = mkContexts target (childSelection (contexts sys)) false.
Proof.
  intros Hs Hg Ht Hne.
  apply settled_rest in Hs. rewrite Hs in *. rewrite fire_rest.
  destruct (contexts sys) as [p ch g]. clear Hs. simpl in *. subst g.
  destruct e; simplify_eq/=; unfold reaction; simpl;
    by rewrite decide_False.
Qed.

Lemma stale_guard_shields_inner_selection_witness :
  settled (fire initialSystem (ChildSelect 1))
  /\ isSelectingInnerBlock (contexts (fire initialSystem (ChildSelect 1)))
     = true
  /\ contexts (fire (fire initialSystem (ChildSelect 1)) (ParentSelect 2))
     = mkContexts (selectBlock 2) (selectBlock 1) false.
Proof.
  assert (H : settled (fire initialSystem (ChildSelect 1))) by reflexivity.
  split; [exact H|]. split; [reflexivity|].
  apply (stale_guard_shields_inner_selection
           (fire initialSystem (ChildSelect 1)) (ParentSelect 2)
           (selectBlock 2) H eq_refl eq_refl).
  discriminate.
Defined.

(** ** Further properties of the edit component *)

(** X5.  With the record at hand the component renders the embedded editor
    under the current [cancelIncrementKey] and on that record; the template
    lock is on and the block list is disabled exactly while not editing; and
    exactly one of the edit panel and the indicator is rendered: the panel
    when the block is selected or being edited, the indicator, titled after
    the record, otherwise. *)
Theorem render_panel_or_indicator (props : Props) (st : State) (post : Post) :
  reusableBlock props = Some post ->
  exists ed,
    render props st = EditorProvider ed
    /\ editor_key ed = cancelIncrementKey st
    /\ editor_post ed = post
    /\ editor_templateLock ed = negb (isEditing st)
    /\ editor_listDisabled ed = negb (isEditing st)
    /\ editor_panel ed
       = (if isSelected props || isEditing st
          then Some (mkEditPanel (isEditing st) (negb (canUpdateBlock props)))
          else None)
    /\ editor_indicator ed
       = (if isSelected props || isEditing st then None
          else Some (title post))
    /\ (is_Some (editor_panel ed) <-> ~ is_Some (editor_indicator ed)).
Proof.
  intros Hpost. unfold render. rewrite Hpost.
  eexists. split; [reflexivity|]. simpl.
  destruct (isSelected props), (isEditing st); simpl;
    repeat split; try done; try (by eexists);
    try (intros [? ?]; done); try (intros H; exfalso; apply H; by eexists).
Qed.

Lemma render_panel_or_indicator_witness :
  reusableBlock testProps = Some testPost
  /\ exists ed,
       render testProps initialState = EditorProvider ed
       /\ editor_templateLock ed = true
       /\ editor_panel ed = Some (mkEditPanel false false)
       /\ editor_indicator ed = None.
Proof.
  split; [reflexivity|].
  destruct (render_panel_or_indicator testProps initialState testPost eq_refl)
    as (ed & Hr & _ & _ & Hlock & _ & Hpanel & Hind & _).
  exists ed. repeat split; assumption.
Defined.

(** X6.  After any sequence of user actions on the panel, started with no
    update pending, whether the session is editing depends on the last
    action alone: it is editing after [onEdit] and locked after [onSave] or
    [onCancel]; no update is left pending. *)
Theorem session_follows_last_action (this : Component)
    (es : list PanelEvent) (e : PanelEvent) :
  pending this = [] ->
  let this' := foldl (fun c e => handle e c) this (es ++ [e]) in
  isEditing (state this') = match e with OnEdit => true | _ => false end
  /\ pending this' = [].
Proof.
  intros Hp this'. subst this'. rewrite foldl_app. cbn [foldl].
  destruct (handle_sequence es this Hp) as [Hq _].
  rewrite (handle_state e _ Hq). by destruct e.
Qed.

Lemma session_follows_last_action_witness :
  pending editingComponent = []
  /\ isEditing
       (state (foldl (fun c e => handle e c) editingComponent
                 ([OnCancel; OnEdit; OnSave] ++ [OnEdit]))) = true.
Proof.
  split; [reflexivity|].
  exact (proj1 (session_follows_last_action editingComponent
                  [OnCancel; OnEdit; OnSave] OnEdit eq_refl)).
Defined.

(** X7.  [cancelEditing] computes the new key from [this.state], which does
    not change while updates are queued: two cancels queued in one batch
    raise the key by one, two cancels handled one after the other raise it
    by two. *)
Theorem cancel_twice_in_one_batch (this : Component) :
  pending this = [] ->
  state (flush (cancelEditing (cancelEditing this)))
  = mkState (cancelIncrementKey (state this) + 1)%N false
  /\ state (handle OnCancel (handle OnCancel this))
     = mkState (cancelIncrementKey (state this) + 2)%N false.
Proof.
  intros Hp. destruct this as [[k ed] q]; simpl in *. subst q.
  split; [reflexivity|]. unfold handle, flush; simpl. f_equal. lia.
Qed.

Lemma cancel_twice_in_one_batch_witness :
  pending editingComponent = []
  /\ state (flush (cancelEditing (cancelEditing editingComponent)))
     = mkState 4 false
  /\ state (handle OnCancel (handle OnCancel editingComponent))
     = mkState 5 false.
Proof.
  split; [reflexivity|].
  exact (cancel_twice_in_one_batch editingComponent eq_refl).
Defined.

(** ** Further properties of the conversions *)

Lemma convertBlockToReusable_outcome (h : Host) (cs : list ClientId)
    (s : Supply) :
  value (convertBlockToReusable h cs s) = inr tt ->
  exists k,
    k <= 1
    /\ replacement (dispatched (convertBlockToReusable h cs s))
       = Some [mkBlock (nextUuid s + k) "core/block"
                 {[ "ref" := temporaryId (S (idCounter s)) ]} []]
    /\ supplyAfter (convertBlockToReusable h cs s)
       = mkSupply (S (nextUuid s + k)) (S (idCounter s)).
Proof.
  destruct (decide (length cs = 1)) as [Hlen|Hlen].
  - destruct cs as [|c [|c' cs]]; try done.
    rewrite convertBlockToReusable_single. simpl.
    destruct (getBlock h c); [|done]. intros _. exists 0.
    rewrite Nat.add_0_r. split; [lia|]. split; reflexivity.
  - rewrite (convertBlockToReusable_multi h cs s Hlen). intros _. exists 1.
    rewrite Nat.add_1_r. split; [lia|]. split; reflexivity.
Qed.

(** X8.  The reference block a successful [convertBlockToReusable] splices
    in is a ["core/block"] whose [ref] is a string, hence no finite number:
    the edit component takes it for temporary, looks up no record for it,
    disables updating and renders the placeholder instead of the embedded
    editor. *)
Theorem converted_block_renders_placeholder (h : Host) (cs : list ClientId)
    (s : Supply) (select : Selectors) (selected : bool) (st : State) :
  value (convertBlockToReusable h cs s) = inr tt ->
  exists referenceBlock,
    replacement (dispatched (convertBlockToReusable h cs s))
    = Some [referenceBlock]
    /\ name referenceBlock = "core/block"
    /\ isTemporaryReusableBlock (attribute referenceBlock "ref") = true
    /\ reusableBlock
         (mapSelectToProps select selected (attributes referenceBlock)) = None
    /\ canUpdateBlock
         (mapSelectToProps select selected (attributes referenceBlock)) = false
    /\ render (mapSelectToProps select selected (attributes referenceBlock)) st
       = Placeholder
           (if isResolving select (temporaryId (S (idCounter s)))
            then Spinner
            else Message "Block has been deleted or is unavailable.").
Proof.
  intros Hok.
  destruct (convertBlockToReusable_outcome h cs s Hok) as (k & _ & Href & _).
  eexists. split; [exact Href|].
  unfold attribute, mapSelectToProps, render. simpl.
  rewrite lookup_singleton_eq. simpl. by repeat split.
Qed.

Lemma converted_block_renders_placeholder_witness :
  value (convertBlockToReusable (hostOf testStore) [2] testSupply) = inr tt
  /\ exists referenceBlock,
       replacement
         (dispatched (convertBlockToReusable (hostOf testStore) [2] testSupply))
       = Some [referenceBlock]
       /\ render
            (mapSelectToProps
               (mkSelectors (fun _ => Some testPost)
                  (fun _ => Js.VBool true) (fun _ => false)
                  (selectBlock 5))
               true (attributes referenceBlock))
            initialState
          = Placeholder (Message "Block has been deleted or is unavailable.").
Proof.
  assert (H : value (convertBlockToReusable (hostOf testStore) [2] testSupply)
              = inr tt) by reflexivity.
  split; [exact H|].
  destruct (converted_block_renders_placeholder (hostOf testStore) [2]
              testSupply
              (mkSelectors (fun _ => Some testPost) (fun _ => Js.VBool true)
                 (fun _ => false) (selectBlock 5))
              true initialState H)
    as (ref & Href & _ & _ & _ & _ & Hrender).
  exists ref. split; [exact Href|exact Hrender].
Defined.

(** X9.  Two conversions to reusable blocks run one after the other, on
    whatever hosts and selections, never hand out the same identifiers: the
    two reference blocks differ in [clientId] and in [ref]. *)
Theorem successive_conversions_distinct (h h' : Host)
    (cs cs' : list ClientId) (s : Supply) :
  let r1 := convertBlockToReusable h cs s in
  let r2 := convertBlockToReusable h' cs' (supplyAfter r1) in
  value r1 = inr tt ->
  value r2 = inr tt ->
  exists ref1 ref2,
    replacement (dispatched r1) = Some [ref1]
    /\ replacement (dispatched r2) = Some [ref2]
    /\ clientId ref1 <> clientId ref2
    /\ attribute ref1 "ref" <> attribute ref2 "ref".
Proof.
  intros r1 r2 H1 H2. subst r1 r2.
  destruct (convertBlockToReusable_outcome h cs s H1) as (k & _ & Hr1 & Hs1).
  destruct (convertBlockToReusable_outcome h' cs' _ H2) as (k' & _ & Hr2 & _).
  rewrite Hs1 in Hr2 |- *. simpl in Hr2.
  do 2 eexists. split; [exact Hr1|]. split; [exact Hr2|].
  unfold attribute. simpl. rewrite !lookup_singleton_eq. simpl.
  split; [lia|]. intros Heq%temporaryId_inj. lia.
Qed.

Lemma successive_conversions_distinct_witness :
  value (convertBlockToReusable (hostOf testStore) [2] testSupply) = inr tt
  /\ value (convertBlockToReusable (hostOf testStore) [3; 4]
              (supplyAfter
                 (convertBlockToReusable (hostOf testStore) [2] testSupply)))
     = inr tt
  /\ exists ref1 ref2,
       replacement
         (dispatched (convertBlockToReusable (hostOf testStore) [2] testSupply))
       = Some [ref1]
       /\ replacement
            (dispatched
               (convertBlockToReusable (hostOf testStore) [3; 4]
                  (supplyAfter
                     (convertBlockToReusable (hostOf testStore) [2]
                        testSupply))))
          = Some [ref2]
       /\ clientId ref1 <> clientId ref2
       /\ attribute ref1 "ref" <> attribute ref2 "ref".
Proof.
  split; [reflexivity|]. split; [reflexivity|].
  exact (successive_conversions_distinct (hostOf testStore) (hostOf testStore)
           [2] [3; 4] testSupply eq_refl eq_refl).
Defined.

Lemma roundTrip_multi (st : Store) (cs : list ClientId) (s : Supply) :
  length cs <> 1 ->
  Forall (fun i => i < nextUuid s)
    (blocksIds (getBlocksByClientId (hostOf st) cs)) ->
  roundTrip st cs s
  = Some (gmapM cloneBlock (getBlocksByClientId (hostOf st) cs)
            (mkSupply (S (S (nextUuid s))) (S (idCounter s)))).1.
Proof.
  intros Hlen Hfresh. unfold roundTrip.
  rewrite (convertBlockToReusable_multi (hostOf st) cs s Hlen).
  unfold replacement at 1.
  cbn -[foldl reduce convertBlockToStatic hostOf replacement pretty
        String.append getBlocksByClientId].
  set (children := getBlocksByClientId (hostOf st) cs) in *.
  set (id := Js.VString ("reusable" +:+ pretty (S (idCounter s)))).
  set (tpl := mkBlock (nextUuid s) "core/template" ∅ children).
  set (ref := mkBlock (S (nextUuid s)) "core/block" {[ "ref" := id ]} []).
  set (rb := mkReusableBlock id (nextUuid s) "Untitled Reusable Block").
  set (st' := foldl reduce st _).
  assert (Hroot : S (nextUuid s) ∉ blocksIds [tpl]).
  { unfold blocksIds. simpl. rewrite app_nil_r.
    apply not_elem_of_cons. split; [lia|].
    intros Hin. rewrite Forall_forall in Hfresh.
    specialize (Hfresh _ Hin). lia. }
  rewrite (convertBlockToStatic_resolved (hostOf st') (S (nextUuid s)) _
             ref tpl rb).
  - unfold staticBlocks. simpl. reflexivity.
  - subst st'. simpl.
    rewrite insertBlocks_lookup_other by exact Hroot.
    apply insertBlocks_lookup_root.
  - subst st'. simpl. unfold attribute. simpl.
    rewrite lookup_singleton_eq. simpl.
    by rewrite bool_decide_eq_true_2.
  - subst st'. simpl. apply insertBlocks_lookup_root.
Qed.

(** X10.  Converting a selection that is not a single block to a reusable
    block, letting the stores take the dispatched actions and converting the
    reference block back yields one new block per selected block the host
    resolved, in order and shaped like it, with identifiers that repeat
    neither each other nor any of the selected blocks'. *)
Theorem round_trip_selection (st : Store) (cs : list ClientId) (s : Supply) :
  length cs <> 1 ->
  Forall (fun i => i < nextUuid s)
    (blocksIds (getBlocksByClientId (hostOf st) cs)) ->
  exists bs',
    roundTrip st cs s = Some bs'
    /\ map shape bs' = map shape (getBlocksByClientId (hostOf st) cs)
    /\ NoDup (blocksIds bs')
    /\ (forall i, i ∈ blocksIds bs' ->
          i ∉ blocksIds (getBlocksByClientId (hostOf st) cs)).
Proof.
  intros Hlen Hfresh. rewrite (roundTrip_multi st cs s Hlen Hfresh).
  set (children := getBlocksByClientId (hostOf st) cs) in *.
  set (s2 := mkSupply _ _).
  pose proof (gmapM_clonesOf children) as H.
  destruct (H (proj2 (Forall_forall _ _)
                 (fun b _ s' => cloneBlock_clonesOf b s')) s2)
    as (Hsh & Hids & _).
  eexists. split; [reflexivity|]. split; [exact Hsh|].
  rewrite Hids. split; [apply NoDup_seq|].
  intros i Hi%elem_of_seq Hin. rewrite Forall_forall in Hfresh.
  specialize (Hfresh _ Hin). simpl in Hi. lia.
Qed.

Lemma round_trip_selection_witness :
  length [3; 4] <> 1
  /\ Forall (fun i => i < nextUuid testSupply)
       (blocksIds (getBlocksByClientId (hostOf testStore) [3; 4]))
  /\ exists bs',
       roundTrip testStore [3; 4] testSupply = Some bs'
       /\ map shape bs' = map shape (innerBlocks parsedBlock).
Proof.
  assert (H1 : length [3; 4] <> 1) by (simpl; lia).
  assert (H2 : Forall (fun i => i < nextUuid testSupply)
                 (blocksIds (getBlocksByClientId (hostOf testStore) [3; 4])))
    by (repeat constructor).
  split; [exact H1|]. split; [exact H2|].
  destruct (round_trip_selection testStore [3; 4] testSupply H1 H2)
    as (bs' & Hrt & Hsh & _).
  exists bs'. split; [exact Hrt|exact Hsh].
Defined.

(** ** Further properties of template synchronisation *)

Lemma synchronizeFrom_matching (template : list TemplateEntry) :
  forall (blocks : list Block) (i : nat) (s : Supply),
    (forall j t, template !! j = Some t ->
       exists b, blocks !! (i + j) = Some b /\ name b = t_name t) ->
    synchronizeFrom blocks i template s
    = (take (length template) (drop i blocks), s).
Proof.
  induction template as [|t template IH]; intros blocks i s Hmatch.
  - reflexivity.
  - cbn [synchronizeFrom length]. rewrite !gbind_run.
    destruct (Hmatch 0 t eq_refl) as (b & Hb & Hname).
    rewrite Nat.add_0_r in Hb.
    assert (Hat : synchronizeAt blocks i t s = (b, s)).
    { unfold synchronizeAt. rewrite Hb. by rewrite decide_True. }
    rewrite Hat. cbn [fst snd].
    rewrite (IH blocks (S i) s).
    + cbn [gret fst snd]. by rewrite (drop_S _ _ _ Hb).
    + intros j t' Hj. destruct (Hmatch (S j) t' Hj) as (b' & Hb' & Hn').
      exists b'. split; [|done]. by replace (S i + j) with (i + S j) by lia.
Qed.

Lemma synchronize_names (blocks : list Block)
    (template : list TemplateEntry) (s : Supply) (j : nat)
    (t : TemplateEntry) :
  template !! j = Some t ->
  exists b',
    (synchronizeBlocksWithTemplate blocks template s).1 !! j = Some b'
    /\ name b' = t_name t.
Proof.
  intros Hj. unfold synchronizeBlocksWithTemplate.
  destruct (synchronizeFrom_spec blocks template 0 s) as (_ & _ & Hpos).
  destruct (Hpos j t Hj) as (b' & Hb' & Hcase).
  exists b'. split; [done|]. simpl in Hcase.
  assert (Hcreated : createdFrom t s b' -> name b' = t_name t).
  { intros [Hsh _]. apply (f_equal shapeName) in Hsh.
    by destruct b', t. }
  destruct (blocks !! j) as [b|]; [|by apply Hcreated].
  destruct (decide (name b = t_name t)); [by subst|].
  destruct Hcase as [_ Hcase]. by apply Hcreated.
Qed.

(** X11.  Synchronising is idempotent: run again on its own result, with
    the same template, it answers that result and draws no identifier. *)
Theorem synchronize_idempotent (blocks : list Block)
    (template : list TemplateEntry) (s : Supply) :
  let r := synchronizeBlocksWithTemplate blocks template s in
  synchronizeBlocksWithTemplate r.1 template r.2 = (r.1, r.2).
Proof.
  intros r. unfold synchronizeBlocksWithTemplate at 1.
  rewrite synchronizeFrom_matching.
  - rewrite drop_0, take_ge; [done|].
    subst r. unfold synchronizeBlocksWithTemplate.
    by destruct (synchronizeFrom_spec blocks template 0 s) as (-> & _).
  - intros j t Hj. by apply synchronize_names.
Qed.

(** X12.  A block list that matches its template name by name, position
    by position and in length, is answered as it is, inner blocks included,
    and no identifier is drawn. *)
Theorem synchronize_matching_unchanged (blocks : list Block)
    (template : list TemplateEntry) (s : Supply) :
  Forall2 (fun b t => name b = t_name t) blocks template ->
  synchronizeBlocksWithTemplate blocks template s = (blocks, s).
Proof.
  intros Hmatch. unfold synchronizeBlocksWithTemplate.
  rewrite synchronizeFrom_matching.
  - rewrite drop_0, take_ge; [done|].
    by rewrite (Forall2_length _ _ _ Hmatch).
  - intros j t Hj.
    destruct (Forall2_lookup_r _ _ _ _ _ Hmatch Hj) as (b & Hb & Hn).
    by exists b.
Qed.

Lemma synchronize_matching_unchanged_witness :
  Forall2 (fun b t => name b = t_name t) (take 1 testBlocks)
    (take 1 testTemplate)
  /\ synchronizeBlocksWithTemplate (take 1 testBlocks) (take 1 testTemplate)
       testSupply
     = (take 1 testBlocks, testSupply).
Proof.
  assert (H : Forall2 (fun b t => name b = t_name t) (take 1 testBlocks)
                (take 1 testTemplate)) by (repeat constructor).
  split; [exact H|].
  exact (synchronize_matching_unchanged _ _ testSupply H).
Defined.

(** ** Block name by title *)

(** X13.  [getBlockNameByTitle] answers the name of the first block type
    carrying the title, and [undefined] exactly when no block type carries
    it. *)
Theorem getBlockNameByTitle_first_match (blockTypes : list BlockType)
    (title : string) :
  match getBlockNameByTitle blockTypes title with
  | Some n =>
      exists i blockType,
        blockTypes !! i = Some blockType
        /\ bt_title blockType = title
        /\ bt_name blockType = n
        /\ Forall (fun earlier => bt_title earlier <> title)
             (take i blockTypes)
  | None => Forall (fun blockType => bt_title blockType <> title) blockTypes
  end.
Proof.
  unfold getBlockNameByTitle.
  induction blockTypes as [|bt bts IH]; simpl; [constructor|].
  case_bool_decide as Ht.
  - exists 0, bt. repeat split; done.
  - destruct (find _ bts) as [found|].
    + destruct IH as (i & blockType & Hi & Htitle & Hname & Hearlier).
      exists (S i), blockType. repeat split; try done.
      simpl. by constructor.
    + by constructor.
Qed.

(** X14.  When titles are unique among the block types, looking up the
    title of a registered block type answers that block type's name. *)
Theorem getBlockNameByTitle_registered (blockTypes : list BlockType)
    (blockType : BlockType) :
  NoDup (map bt_title blockTypes) ->
  blockType ∈ blockTypes ->
  getBlockNameByTitle blockTypes (bt_title blockType)
  = Some (bt_name blockType).
Proof.
  unfold getBlockNameByTitle.
  induction blockTypes as [|bt bts IH]; intros Hnodup Hin.
  - by apply elem_of_nil in Hin.
  - simpl in *. apply NoDup_cons in Hnodup as [Hnotin Hnodup].
    apply elem_of_cons in Hin as [->|Hin].
    + by rewrite bool_decide_eq_true_2.
    + rewrite bool_decide_eq_false_2; [by apply IH|].
      intros Heq. apply Hnotin. rewrite Heq.
      apply list_elem_of_fmap. by exists blockType.
Qed.

Lemma getBlockNameByTitle_registered_witness :
  NoDup (map bt_title testBlockTypes)
  /\ mkBlockType "core/block" "Reusable Block" ∈ testBlockTypes
  /\ getBlockNameByTitle testBlockTypes "Reusable Block" = Some "core/block".
Proof.
  assert (H1 : NoDup (map bt_title testBlockTypes)).
  { simpl. apply NoDup_cons. split.
    - intros H%list_elem_of_singleton. discriminate.
    - apply NoDup_singleton. }
  assert (H2 : mkBlockType "core/block" "Reusable Block" ∈ testBlockTypes).
  { unfold testBlockTypes. apply list_elem_of_further, list_elem_of_here. }
  split; [exact H1|]. split; [exact H2|].
  exact (getBlockNameByTitle_registered testBlockTypes _ H1 H2).
Defined.
